(** * Loan amortization with a bonus track: [loan_cul.py]

    An embedding of the two computational functions of [loan_cul.py],
    [calculate_monthly_payment] and [calculate_amortization_schedule],
    in two readings.

    - Exact arithmetic.  The top-level definitions read every amount
      and rate as an exact rational [Q], compared with [==]: this is
      the arithmetic the formulas of the code are written for.  The
      code agrees with it where its operations are exact (as at rate 0
      on small integers) and where a property rests on the control
      flow alone (which months are bonus months, how many rows are
      appended).
    - Binary64.  The module [Binary64] reads the same lines over
      primitive floats, with the rounding and the exceptions of
      Python's float operations: this is the arithmetic the code runs
      in.

    Integral quantities ([years], [bonus_frequency], [month]) are [Z] in
    both.  What holds of every run of the code is stated on [Binary64];
    what holds of the formulas only, and is lost to rounding, is stated
    on the exact reading and says so, next to a binary64 run that
    breaks it. *)

From Stdlib Require Import ZArith QArith Qpower Qfield Lqa Lia List Bool.
From Stdlib Require Import PrimFloat SpecFloat FloatOps FloatAxioms.
Import ListNotations.

Set Warnings "-inexact-float".

Local Open Scope Q_scope.

(** ** The Python operations the code relies on *)

Module Py.

(** The only exception the two functions can raise in exact
    arithmetic. *)
Inductive exn : Set := ZeroDivisionError.

Inductive result (A : Type) : Type :=
| Ok (a : A)
| Raise (e : exn).
Arguments Ok {A} a.
Arguments Raise {A} e.

Definition bind {A B : Type} (c : result A) (k : A -> result B) : result B :=
  match c with
  | Ok a => k a
  | Raise e => Raise e
  end.

(** [x / y]: true division. *)
Definition truediv (x y : Q) : result Q :=
  if Qeq_dec y 0 then Raise ZeroDivisionError else Ok (x / y).

(** [b ** e] with an integral exponent; [0 ** e] raises for [e < 0]. *)
Definition pow (b : Q) (e : Z) : result Q :=
  if (e <? 0)%Z
  then if Qeq_dec b 0 then Raise ZeroDivisionError else Ok (b ^ e)
  else Ok (b ^ e).

(** [min(a, b)] returns [a] unless [b < a]. *)
Definition min (a b : Q) : Q := if Qlt_le_dec b a then b else a.

(** [max(a, b)] returns [a] unless [b > a]. *)
Definition max (a b : Q) : Q := if Qlt_le_dec a b then b else a.

(** [range(lo, hi)]. *)
Definition range (lo hi : Z) : list Z :=
  map (fun i => (lo + Z.of_nat i)%Z) (seq 0 (Z.to_nat (hi - lo))).

(** [x in l] on a list of integers. *)
Definition mem (x : Z) (l : list Z) : bool := existsb (Z.eqb x) l.

End Py.

Import Py.

Notation "x <- c ;; k" := (bind c (fun x => k))
  (at level 61, c at next level, right associativity).

(** ** [calculate_monthly_payment] *)

(** Returns the pair [(monthly_payment, bonus_payment)].  The power
    [(1 + monthly_rate) ** num_payments] occurs twice in the source
    expression; being pure it is bound once here, and likewise for the
    bonus track. *)
Definition calculate_monthly_payment
    (principal annual_rate : Q) (years : Z)
    (bonus_principal : Q) (bonus_frequency : Z) : result (Q * Q) :=
  let monthly_rate := annual_rate / 100 / 12 in
  let num_payments := (years * 12)%Z in
  let monthly_principal := principal - bonus_principal in
  if Qeq_dec monthly_rate 0 then
    monthly_payment <- truediv monthly_principal (inject_Z num_payments) ;;
    bonus_payment <-
      (if Qlt_le_dec 0 bonus_principal
       then truediv bonus_principal (inject_Z (years * bonus_frequency))
       else Ok 0) ;;
    Ok (monthly_payment, bonus_payment)
  else
    growth <- pow (1 + monthly_rate) num_payments ;;
    monthly_payment <-
      truediv (monthly_principal * (monthly_rate * growth)) (growth - 1) ;;
    bonus_payment <-
      (if Qlt_le_dec 0 bonus_principal then
         let bonus_rate := monthly_rate * inject_Z bonus_frequency in
         bonus_growth <- pow (1 + bonus_rate) years ;;
         truediv (bonus_principal * (bonus_rate * bonus_growth))
                 (bonus_growth - 1)
       else Ok 0) ;;
    Ok (monthly_payment, bonus_payment).

(** ** [calculate_amortization_schedule] *)

(** One row of the returned table.  The dictionary keys of the source
    are given after each field. *)
Record PeriodRecord : Set := mkPeriodRecord {
  periodIndex : Z;            (* '回数'     : month *)
  totalPayment : Q;           (* '返済額'   : total_payment *)
  monthlyPortionPayment : Q;  (* '月々返済' : monthly_payment *)
  bonusPortionPayment : Q;    (* '賞与返済' : bonus_payment_this_month *)
  principalPortion : Q;       (* '元金'     : total_principal_payment *)
  interestPortion : Q;        (* '利息'     : total_interest *)
  endingBalance : Q           (* '残高'     : max(0, remaining_balance) *)
}.

(** The variables the loop updates. *)
Record LoopState : Set := mkLoopState {
  schedule : list PeriodRecord;
  remaining_balance : Q;
  bonus_remaining : Q;
  monthly_remaining : Q
}.

(** [bonus_months]: the list tested against [month % 12]. *)
Definition bonus_months_of (bonus_frequency : Z) : list Z :=
  if (bonus_frequency =? 2)%Z then [6; 12]%Z
  else if (bonus_frequency =? 1)%Z then [12]%Z
  else [].

(** The body of [for month in range(1, num_payments + 1)]. *)
Definition loop_body (monthly_rate monthly_payment bonus_payment : Q)
    (bonus_months : list Z) (st : LoopState) (month : Z) : LoopState :=
  let is_bonus_month := mem (month mod 12)%Z bonus_months in
  let monthly_interest := monthly_remaining st * monthly_rate in
  let monthly_principal_payment := monthly_payment - monthly_interest in
  let '(bonus_interest, bonus_principal_payment,
        bonus_payment_this_month, bonus_remaining') :=
    if is_bonus_month && (if Qlt_le_dec 0 (bonus_remaining st) then true else false)
    then
      let bonus_interest := bonus_remaining st * monthly_rate in
      let bonus_principal_payment :=
        min (bonus_payment - bonus_interest) (bonus_remaining st) in
      (bonus_interest, bonus_principal_payment,
       bonus_interest + bonus_principal_payment,
       bonus_remaining st - bonus_principal_payment)
    else (0, 0, 0, bonus_remaining st) in
  let monthly_remaining' := monthly_remaining st - monthly_principal_payment in
  let total_payment := monthly_payment + bonus_payment_this_month in
  let total_interest := monthly_interest + bonus_interest in
  let total_principal_payment :=
    monthly_principal_payment + bonus_principal_payment in
  let remaining_balance' := monthly_remaining' + bonus_remaining' in
  {| schedule :=
       schedule st ++
       [ {| periodIndex := month;
            totalPayment := total_payment;
            monthlyPortionPayment := monthly_payment;
            bonusPortionPayment := bonus_payment_this_month;
            principalPortion := total_principal_payment;
            interestPortion := total_interest;
            endingBalance := max 0 remaining_balance' |} ];
     remaining_balance := remaining_balance';
     bonus_remaining := bonus_remaining';
     monthly_remaining := monthly_remaining' |}.

(** The variables as initialised before the loop. *)
Definition initial_state (principal bonus_principal : Q) : LoopState :=
  {| schedule := [];
     remaining_balance := principal;
     bonus_remaining := bonus_principal;
     monthly_remaining := principal - bonus_principal |}.

(** The loop run over the first [k] months, from the initial state. *)
Definition state_after (monthly_rate monthly_payment bonus_payment : Q)
    (principal bonus_principal : Q) (bonus_frequency : Z) (k : Z) : LoopState :=
  fold_left
    (loop_body monthly_rate monthly_payment bonus_payment
               (bonus_months_of bonus_frequency))
    (range 1 (k + 1))
    (initial_state principal bonus_principal).

(** The whole function, up to the final state of the loop: the data
    frame returned is its [schedule]. *)
Definition amortization_final_state
    (principal annual_rate : Q) (years : Z)
    (bonus_principal : Q) (bonus_frequency : Z) : result LoopState :=
  let monthly_rate := annual_rate / 100 / 12 in
  let num_payments := (years * 12)%Z in
  plan <- calculate_monthly_payment principal annual_rate years
            bonus_principal bonus_frequency ;;
  let '(monthly_payment, bonus_payment) := plan in
  Ok (state_after monthly_rate monthly_payment bonus_payment
        principal bonus_principal bonus_frequency num_payments).

Definition calculate_amortization_schedule
    (principal annual_rate : Q) (years : Z)
    (bonus_principal : Q) (bonus_frequency : Z) : result (list PeriodRecord) :=
  st <- amortization_final_state principal annual_rate years
          bonus_principal bonus_frequency ;;
  Ok (schedule st).

(** ** Valid loan terms *)

(** The input domain of the specification: positive principal,
    non-negative rate, positive term, a bonus principal between 0 and
    the principal, and a bonus frequency of 1 or 2 when there is a
    bonus track. *)
Definition valid_terms (principal annual_rate : Q) (years : Z)
    (bonus_principal : Q) (bonus_frequency : Z) : Prop :=
  0 < principal /\ 0 <= annual_rate /\ (0 < years)%Z /\
  0 <= bonus_principal /\ bonus_principal <= principal /\
  (0 < bonus_principal -> bonus_frequency = 1%Z \/ bonus_frequency = 2%Z).

(** ** Quantities the statements refer to *)

(** The sum of the '元金' column. *)
Definition sum_principalPortion (s : list PeriodRecord) : Q :=
  fold_right (fun r acc => principalPortion r + acc) 0 s.

(** The row appended by the latest iteration. *)
Definition blank_record : PeriodRecord := mkPeriodRecord 0 0 0 0 0 0 0.

Definition current_record (st : LoopState) : PeriodRecord :=
  last (schedule st) blank_record.

(** The plan returned by the zero-interest branch of
    [calculate_monthly_payment]. *)
Definition zero_rate_plan (principal : Q) (years : Z)
    (bonus_principal : Q) (bonus_frequency : Z) : Q * Q :=
  ((principal - bonus_principal) / inject_Z (years * 12),
   if Qlt_le_dec 0 bonus_principal
   then bonus_principal / inject_Z (years * bonus_frequency)
   else 0).

(** The plan returned by its annuity branch. *)
Definition annuity_plan (principal annual_rate : Q) (years : Z)
    (bonus_principal : Q) (bonus_frequency : Z) : Q * Q :=
  let monthly_rate := annual_rate / 100 / 12 in
  let growth := (1 + monthly_rate) ^ (years * 12) in
  let bonus_rate := monthly_rate * inject_Z bonus_frequency in
  let bonus_growth := (1 + bonus_rate) ^ years in
  ((principal - bonus_principal) * (monthly_rate * growth) / (growth - 1),
   if Qlt_le_dec 0 bonus_principal
   then bonus_principal * (bonus_rate * bonus_growth) / (bonus_growth - 1)
   else 0).

(** The argument combinations the specification wants rejected. *)
Definition rejected_terms (principal annual_rate : Q) (years : Z)
    (bonus_principal : Q) (bonus_frequency : Z) : Prop :=
  principal <= 0 \/ annual_rate < 0 \/ (years <= 0)%Z \/
  bonus_principal < 0 \/ principal < bonus_principal \/
  (0 < bonus_principal /\ bonus_frequency <> 1%Z /\ bonus_frequency <> 2%Z).

(** The two running balances stay within their sub-principals. *)
Definition balances_bounded (principal bonus_principal : Q)
    (st : LoopState) : Prop :=
  monthly_remaining st <= principal - bonus_principal /\
  0 <= bonus_remaining st /\ bonus_remaining st <= bonus_principal.

(** ** [main]: what the form hands to the two functions *)





(** * The code in binary64 *)

(** The second reading of the two functions: every amount and rate is a
    binary64 [float] and every operation rounds as Python's does.  An
    [int] argument below 2^53 stands for the float of the same value;
    [years] and [bonus_frequency] stay integers and are converted where
    the code mixes them with floats.  The month arithmetic ([range],
    [in], [bonus_months]) is that of the first reading. *)

Module Binary64.

Local Open Scope float_scope.

(** The exceptions float arithmetic can raise. *)
Inductive exn : Set := ZeroDivisionError | OverflowError.

Inductive result (A : Type) : Type :=
| Ok (a : A)
| Raise (e : exn).
Arguments Ok {A} a.
Arguments Raise {A} e.

Definition bind {A B : Type} (c : result A) (k : A -> result B) : result B :=
  match c with
  | Ok a => k a
  | Raise e => Raise e
  end.

Notation "x <~ c ;; k" := (bind c (fun x => k))
  (at level 61, c at next level, right associativity).

(** [float(n)] as a [spec_float]: rounded to nearest, ties to even. *)
Definition round_int (n : Z) : spec_float :=
  binary_normalize prec emax n 0 false.

(** The integer an integral [spec_float] stands for. *)
Definition Z_of_integral (x : spec_float) : Z :=
  match x with
  | S754_finite s m e =>
      let v := Z.shiftl (Zpos m) e in if s then (- v)%Z else v
  | _ => 0%Z
  end.

(** The conversion of an [int] operand of a float operation; an int
    too large for a float raises [OverflowError]. *)
Definition float_of_int (n : Z) : result float :=
  match round_int n with
  | S754_infinity _ => Raise OverflowError
  | x => Ok (SF2Prim x)
  end.

(** [x / y] on floats: a zero divisor of either sign raises. *)
Definition truediv (x y : float) : result float :=
  if y =? 0 then Raise ZeroDivisionError else Ok (x / y).

(** The power of the positive finite float [m * 2^e] by a non-zero
    integer [k], computed exactly and rounded once to nearest.  This
    stands for the C library's [pow], which CPython calls: the two agree
    wherever [pow] is correctly rounded, in particular whenever the
    power is itself a float. *)
Definition rounded_power (m : positive) (e k : Z) : spec_float :=
  if (0 <? k)%Z
  then binary_normalize prec emax (Zpos m ^ k) (e * k) false
  else SFdiv prec emax
         (S754_finite false 1 0)
         (S754_finite false (Z.to_pos (Zpos m ^ (- k))) (e * (- k))).

(** [b ** n] for a float [b] and an int [n], after CPython's
    [float_pow]: the exponent is converted first; a zero exponent gives
    1.0 for every base; a zero base with a negative exponent raises
    [ZeroDivisionError]; a result beyond the floats raises
    [OverflowError]. *)
Definition pow (b : float) (n : Z) : result float :=
  match round_int n with
  | S754_infinity _ => Raise OverflowError
  | w =>
      let k := Z_of_integral w in
      if (k =? 0)%Z then Ok 1
      else
        match Prim2SF b with
        | S754_nan => Ok nan
        | S754_infinity s =>
            let negate := s && Z.odd k in
            Ok (if (0 <? k)%Z
                then if negate then neg_infinity else infinity
                else if negate then neg_zero else zero)
        | S754_zero _ =>
            if (k <? 0)%Z then Raise ZeroDivisionError
            else Ok (if Z.odd k then b else zero)
        | S754_finite s m e =>
            let negate := s && Z.odd k in
            if abs b =? 1 then Ok (if negate then -1 else 1)
            else
              match rounded_power m e k with
              | S754_infinity _ => Raise OverflowError
              | x => Ok (if negate then - SF2Prim x else SF2Prim x)
              end
        end
  end.

(** [min(a, b)] returns [a] unless [b < a]; [max(a, b)] returns [a]
    unless [b > a]. *)
Definition min (a b : float) : float := if b <? a then b else a.

Definition max (a b : float) : float := if a <? b then b else a.

(** [calculate_monthly_payment]. *)
Definition calculate_monthly_payment
    (principal annual_rate : float) (years : Z)
    (bonus_principal : float) (bonus_frequency : Z) : result (float * float) :=
  let monthly_rate := annual_rate / 100 / 12 in
  let num_payments := (years * 12)%Z in
  let monthly_principal := principal - bonus_principal in
  if monthly_rate =? 0 then
    divisor <~ float_of_int num_payments ;;
    monthly_payment <~ truediv monthly_principal divisor ;;
    bonus_payment <~
      (if 0 <? bonus_principal then
         bonus_divisor <~ float_of_int (years * bonus_frequency) ;;
         truediv bonus_principal bonus_divisor
       else Ok 0) ;;
    Ok (monthly_payment, bonus_payment)
  else
    growth <~ pow (1 + monthly_rate) num_payments ;;
    monthly_payment <~
      truediv (monthly_principal * (monthly_rate * growth)) (growth - 1) ;;
    bonus_payment <~
      (if 0 <? bonus_principal then
         frequency <~ float_of_int bonus_frequency ;;
         let bonus_rate := monthly_rate * frequency in
         bonus_growth <~ pow (1 + bonus_rate) years ;;
         truediv (bonus_principal * (bonus_rate * bonus_growth))
                 (bonus_growth - 1)
       else Ok 0) ;;
    Ok (monthly_payment, bonus_payment).

(** One row of the returned table, with the dictionary keys. *)
Record PeriodRecord : Set := mkPeriodRecord {
  periodIndex : Z;                (* '回数' *)
  totalPayment : float;           (* '返済額' *)
  monthlyPortionPayment : float;  (* '月々返済' *)
  bonusPortionPayment : float;    (* '賞与返済' *)
  principalPortion : float;       (* '元金' *)
  interestPortion : float;        (* '利息' *)
  endingBalance : float           (* '残高' *)
}.

Record LoopState : Set := mkLoopState {
  schedule : list PeriodRecord;
  remaining_balance : float;
  bonus_remaining : float;
  monthly_remaining : float
}.

(** The body of [for month in range(1, num_payments + 1)]. *)
Definition loop_body (monthly_rate monthly_payment bonus_payment : float)
    (bonus_months : list Z) (st : LoopState) (month : Z) : LoopState :=
  let is_bonus_month := mem (month mod 12)%Z bonus_months in
  let monthly_interest := monthly_remaining st * monthly_rate in
  let monthly_principal_payment := monthly_payment - monthly_interest in
  let '(bonus_interest, bonus_principal_payment,
        bonus_payment_this_month, bonus_remaining') :=
    if is_bonus_month && (0 <? bonus_remaining st)
    then
      let bonus_interest := bonus_remaining st * monthly_rate in
      let bonus_principal_payment :=
        min (bonus_payment - bonus_interest) (bonus_remaining st) in
      (bonus_interest, bonus_principal_payment,
       bonus_interest + bonus_principal_payment,
       bonus_remaining st - bonus_principal_payment)
    else (0, 0, 0, bonus_remaining st) in
  let monthly_remaining' := monthly_remaining st - monthly_principal_payment in
  let total_payment := monthly_payment + bonus_payment_this_month in
  let total_interest := monthly_interest + bonus_interest in
  let total_principal_payment :=
    monthly_principal_payment + bonus_principal_payment in
  let remaining_balance' := monthly_remaining' + bonus_remaining' in
  {| schedule :=
       schedule st ++
       [ {| periodIndex := month;
            totalPayment := total_payment;
            monthlyPortionPayment := monthly_payment;
            bonusPortionPayment := bonus_payment_this_month;
            principalPortion := total_principal_payment;
            interestPortion := total_interest;
            endingBalance := max 0 remaining_balance' |} ];
     remaining_balance := remaining_balance';
     bonus_remaining := bonus_remaining';
     monthly_remaining := monthly_remaining' |}.

Definition initial_state (principal bonus_principal : float) : LoopState :=
  {| schedule := [];
     remaining_balance := principal;
     bonus_remaining := bonus_principal;
     monthly_remaining := principal - bonus_principal |}.

(** The loop run over the first [k] months, from the initial state. *)
Definition state_after (monthly_rate monthly_payment bonus_payment : float)
    (principal bonus_principal : float) (bonus_frequency : Z) (k : Z)
  : LoopState :=
  fold_left
    (loop_body monthly_rate monthly_payment bonus_payment
               (bonus_months_of bonus_frequency))
    (range 1 (k + 1))
    (initial_state principal bonus_principal).

Definition amortization_final_state
    (principal annual_rate : float) (years : Z)
    (bonus_principal : float) (bonus_frequency : Z) : result LoopState :=
  let monthly_rate := annual_rate / 100 / 12 in
  let num_payments := (years * 12)%Z in
  plan <~ calculate_monthly_payment principal annual_rate years
            bonus_principal bonus_frequency ;;
  let '(monthly_payment, bonus_payment) := plan in
  Ok (state_after monthly_rate monthly_payment bonus_payment
        principal bonus_principal bonus_frequency num_payments).

(** [calculate_amortization_schedule]; the data frame is the list of
    its rows. *)
Definition calculate_amortization_schedule
    (principal annual_rate : float) (years : Z)
    (bonus_principal : float) (bonus_frequency : Z)
  : result (list PeriodRecord) :=
  st <~ amortization_final_state principal annual_rate years
          bonus_principal bonus_frequency ;;
  Ok (schedule st).

(** The input domain of the specification, tested on floats. *)
Definition valid_terms (principal annual_rate : float) (years : Z)
    (bonus_principal : float) (bonus_frequency : Z) : bool :=
  (0 <? principal) && (0 <=? annual_rate) && (0 <? years)%Z &&
  (0 <=? bonus_principal) && (bonus_principal <=? principal) &&
  (negb (0 <? bonus_principal) ||
   (bonus_frequency =? 1)%Z || (bonus_frequency =? 2)%Z).

(** The row appended by the latest iteration. *)
Definition blank_record : PeriodRecord := mkPeriodRecord 0 0 0 0 0 0 0.

Definition current_record (st : LoopState) : PeriodRecord :=
  last (schedule st) blank_record.

(** ** [main]: the yearly summary and the two excerpts *)

(** One row of [yearly_summary], with the dictionary keys. *)
Record YearRecord : Set := mkYearRecord {
  yearIndex : Z;              (* '年' *)
  yearlyPayment : float;      (* '年間返済額' *)
  yearlyMonthly : float;      (* '月々返済' *)
  yearlyBonus : float;        (* '賞与返済' *)
  yearlyPrincipal : float;    (* '年間元金' *)
  yearlyInterest : float;     (* '年間利息' *)
  yearEndBalance : float      (* '年末残高' *)
}.

(** [schedule_df[(回数 > (year-1)*12) & (回数 <= year*12)]]. *)
Definition year_data (schedule_df : list PeriodRecord) (year : Z)
  : list PeriodRecord :=
  filter (fun r => ((year - 1) * 12 <? periodIndex r)%Z &&
                   (periodIndex r <=? year * 12)%Z)
         schedule_df.

(** The dictionary appended for one [year].  [series_sum] stands for
    pandas' [Series.sum], whose order of additions is pandas' own. *)
Definition year_record (series_sum : list float -> float)
    (schedule_df : list PeriodRecord) (year : Z) : YearRecord :=
  let yd := year_data schedule_df year in
  {| yearIndex := year;
     yearlyPayment := series_sum (map totalPayment yd);
     yearlyMonthly := series_sum (map monthlyPortionPayment yd);
     yearlyBonus := series_sum (map bonusPortionPayment yd);
     yearlyPrincipal := series_sum (map principalPortion yd);
     yearlyInterest := series_sum (map interestPortion yd);
     yearEndBalance :=
       match yd with
       | [] => 0
       | _ :: _ => endingBalance (last yd blank_record)
       end |}.

(** [for year in range(1, years + 1)]. *)
Definition yearly_summary (series_sum : list float -> float)
    (schedule_df : list PeriodRecord) (years : Z) : list YearRecord :=
  map (year_record series_sum schedule_df) (range 1 (years + 1)).

(** [schedule_df.head(12)] and [schedule_df.tail(12)]. *)
Definition first_12 (schedule_df : list PeriodRecord) : list PeriodRecord :=
  firstn 12 schedule_df.

Definition last_12 (schedule_df : list PeriodRecord) : list PeriodRecord :=
  skipn (length schedule_df - 12) schedule_df.

End Binary64.

(** ** Facts about the Python operations *)

Lemma range_nil (lo hi : Z) : (hi <= lo)%Z -> range lo hi = [].
Proof.
  intros H. unfold range.
  replace (Z.to_nat (hi - lo)) with 0%nat by lia. reflexivity.
Qed.

Lemma range_snoc (lo hi : Z) :
  (lo <= hi)%Z -> range lo (hi + 1) = range lo hi ++ [hi].
Proof.
  intros H. unfold range.
  replace (Z.to_nat (hi + 1 - lo)) with (S (Z.to_nat (hi - lo))) by lia.
  rewrite seq_S, map_app. cbn [map Nat.add]. repeat f_equal. lia.
Qed.

Lemma range_length (lo hi : Z) : length (range lo hi) = Z.to_nat (hi - lo).
Proof. unfold range. now rewrite length_map, length_seq. Qed.

Lemma max_0_nonneg (x : Q) : 0 <= max 0 x.
Proof. unfold max. destruct (Qlt_le_dec 0 x); lra. Qed.

Lemma max_0_mono (x y : Q) : x <= y -> max 0 x <= max 0 y.
Proof. intros H. unfold max. destruct (Qlt_le_dec 0 x), (Qlt_le_dec 0 y); lra. Qed.

Lemma max_0_of_zero (x : Q) : x == 0 -> max 0 x == 0.
Proof. intros H. unfold max. destruct (Qlt_le_dec 0 x); lra. Qed.

Lemma min_le_r (a b : Q) : min a b <= b.
Proof. unfold min. destruct (Qlt_le_dec b a); lra. Qed.

Lemma min_glb (a b c : Q) : c <= a -> c <= b -> c <= min a b.
Proof. intros Ha Hb. unfold min. destruct (Qlt_le_dec b a); lra. Qed.

Lemma sum_principalPortion_snoc (s : list PeriodRecord) (r : PeriodRecord) :
  sum_principalPortion (s ++ [r]) == sum_principalPortion s + principalPortion r.
Proof.
  induction s as [|x s IH]; cbn.
  - ring.
  - unfold sum_principalPortion in IH. rewrite IH. ring.
Qed.

(** ** One iteration of the loop *)

Section LoopBody.

Variables monthly_rate monthly_payment bonus_payment : Q.
Variable bonus_months : list Z.

Local Abbreviation body :=
  (loop_body monthly_rate monthly_payment bonus_payment bonus_months).

(** Splits on the test [is_bonus_month and bonus_remaining > 0]. *)
Ltac body_cases st month :=
  unfold loop_body, current_record;
  destruct (mem (month mod 12)%Z bonus_months);
  destruct (Qlt_le_dec 0 (bonus_remaining st));
  cbn [andb schedule remaining_balance bonus_remaining monthly_remaining].

Lemma body_schedule (st : LoopState) (month : Z) :
  schedule (body st month) = schedule st ++ [current_record (body st month)].
Proof. body_cases st month; now rewrite last_last. Qed.

Lemma body_periodIndex (st : LoopState) (month : Z) :
  periodIndex (current_record (body st month)) = month.
Proof. body_cases st month; now rewrite last_last. Qed.

Lemma body_monthlyPortionPayment (st : LoopState) (month : Z) :
  monthlyPortionPayment (current_record (body st month)) = monthly_payment.
Proof. body_cases st month; now rewrite last_last. Qed.

Lemma body_totalPayment (st : LoopState) (month : Z) :
  totalPayment (current_record (body st month)) =
  monthly_payment + bonusPortionPayment (current_record (body st month)).
Proof. body_cases st month; now rewrite last_last. Qed.

Lemma body_accounting (st : LoopState) (month : Z) :
  principalPortion (current_record (body st month)) +
  interestPortion (current_record (body st month)) ==
  totalPayment (current_record (body st month)).
Proof. body_cases st month; rewrite last_last; cbn; ring. Qed.

Lemma body_endingBalance (st : LoopState) (month : Z) :
  endingBalance (current_record (body st month)) =
  max 0 (monthly_remaining (body st month) + bonus_remaining (body st month)).
Proof. body_cases st month; now rewrite last_last. Qed.

Lemma body_remaining_balance (st : LoopState) (month : Z) :
  remaining_balance (body st month) =
  monthly_remaining (body st month) + bonus_remaining (body st month).
Proof. body_cases st month; reflexivity. Qed.

(** The principal paid in a period is what the two balances lose. *)
Lemma body_principalPortion (st : LoopState) (month : Z) :
  principalPortion (current_record (body st month)) ==
  (monthly_remaining st - monthly_remaining (body st month)) +
  (bonus_remaining st - bonus_remaining (body st month)).
Proof. body_cases st month; rewrite last_last; cbn; ring. Qed.

Lemma body_monthly_remaining (st : LoopState) (month : Z) :
  monthly_remaining (body st month) ==
  monthly_remaining st * (1 + monthly_rate) - monthly_payment.
Proof. body_cases st month; ring. Qed.


(** Outside a bonus month the bonus track is untouched. *)
Lemma body_no_bonus (st : LoopState) (month : Z) :
  mem (month mod 12)%Z bonus_months = false ->
  bonus_remaining (body st month) = bonus_remaining st /\
  bonusPortionPayment (current_record (body st month)) = 0.
Proof.
  intros Hm. unfold loop_body, current_record. rewrite Hm.
  cbn [andb schedule bonus_remaining]. now rewrite last_last.
Qed.

(** So is it once the bonus balance is used up. *)
Lemma body_bonus_done (st : LoopState) (month : Z) :
  bonus_remaining st <= 0 ->
  bonus_remaining (body st month) = bonus_remaining st /\
  bonusPortionPayment (current_record (body st month)) = 0.
Proof.
  intros Hb. body_cases st month; rewrite last_last; cbn; try (split; reflexivity);
    exfalso; lra.
Qed.

(** In a bonus month with a positive bonus balance, the balance
    follows the capped annuity step. *)
Lemma body_bonus_paid (st : LoopState) (month : Z) :
  mem (month mod 12)%Z bonus_months = true ->
  0 < bonus_remaining st ->
  bonus_remaining (body st month) =
  bonus_remaining st -
  min (bonus_payment - bonus_remaining st * monthly_rate) (bonus_remaining st).
Proof.
  intros Hm Hb. unfold loop_body. rewrite Hm.
  destruct (Qlt_le_dec 0 (bonus_remaining st)); [reflexivity | exfalso; lra].
Qed.

(** *** The whole loop *)

Lemma fold_periodIndex (months : list Z) (st : LoopState) :
  map periodIndex (schedule (fold_left body months st)) =
  map periodIndex (schedule st) ++ months.
Proof.
  revert st. induction months as [|m ms IH]; intros st; cbn [fold_left].
  - now rewrite app_nil_r.
  - rewrite IH, body_schedule, map_app, <- app_assoc. cbn.
    now rewrite body_periodIndex.
Qed.

Lemma fold_schedule_Forall (P : PeriodRecord -> Prop) :
  (forall st month, P (current_record (body st month))) ->
  forall months st,
    Forall P (schedule st) ->
    Forall P (schedule (fold_left body months st)).
Proof.
  intros HP months. induction months as [|m ms IH]; intros st Hst; cbn [fold_left].
  - exact Hst.
  - apply IH. rewrite body_schedule. apply Forall_app. split; [exact Hst|].
    constructor; [apply HP | constructor].
Qed.

End LoopBody.

(** ** The states the loop goes through *)

Section Trace.

Variables monthly_rate monthly_payment bonus_payment : Q.
Variables principal bonus_principal : Q.
Variable bonus_frequency : Z.

Local Abbreviation body :=
  (loop_body monthly_rate monthly_payment bonus_payment
             (bonus_months_of bonus_frequency)).
Local Abbreviation state k :=
  (state_after monthly_rate monthly_payment bonus_payment
               principal bonus_principal bonus_frequency k).

Lemma state_after_0 : state 0 = initial_state principal bonus_principal.
Proof. reflexivity. Qed.

Lemma state_after_succ (k : Z) :
  (0 <= k)%Z -> state (k + 1) = body (state k) (k + 1)%Z.
Proof.
  intros Hk. unfold state_after.
  rewrite (range_snoc 1 (k + 1)) by lia. now rewrite fold_left_app.
Qed.

(** Induction over the periods of the loop. *)
Lemma state_after_ind (P : Z -> LoopState -> Prop) :
  P 0%Z (initial_state principal bonus_principal) ->
  (forall k, (0 <= k)%Z -> P k (state k) ->
             P (k + 1)%Z (body (state k) (k + 1)%Z)) ->
  forall k, (0 <= k)%Z -> P k (state k).
Proof.
  intros H0 HS k Hk. pattern k. apply natlike_ind; [exact H0 | | exact Hk].
  intros x Hx IH. unfold Z.succ. rewrite state_after_succ by exact Hx.
  now apply HS.
Qed.

Lemma state_after_length (k : Z) :
  (0 <= k)%Z -> length (schedule (state k)) = Z.to_nat k.
Proof.
  intros Hk.
  rewrite <- (length_map periodIndex). unfold state_after.
  rewrite fold_periodIndex. cbn [initial_state schedule map app].
  rewrite range_length. f_equal. lia.
Qed.

Lemma state_after_schedule_succ (k : Z) :
  (0 <= k)%Z ->
  schedule (state (k + 1)) = schedule (state k) ++ [current_record (state (k + 1))].
Proof.
  intros Hk. rewrite state_after_succ by exact Hk. apply body_schedule.
Qed.

(** Row [j] of the schedule after [k > j] periods is the row emitted
    in period [j + 1]. *)
Lemma state_after_nth (k : Z) :
  (0 <= k)%Z ->
  forall j, (0 <= j < k)%Z ->
    nth_error (schedule (state k)) (Z.to_nat j) =
    Some (current_record (state (j + 1))).
Proof.
  intros Hk. pattern k. apply natlike_ind; [ | | exact Hk].
  - intros j Hj. lia.
  - intros x Hx IH j Hj. unfold Z.succ.
    rewrite state_after_schedule_succ by exact Hx.
    destruct (Z.eq_dec j x) as [-> | Hne].
    + rewrite nth_error_app2; rewrite state_after_length by exact Hx; [|lia].
      now rewrite Nat.sub_diag.
    + rewrite nth_error_app1 by (rewrite state_after_length by exact Hx; lia).
      apply IH. lia.
Qed.

Lemma state_after_nth_inv (k : Z) (i : nat) (r : PeriodRecord) :
  (0 <= k)%Z ->
  nth_error (schedule (state k)) i = Some r ->
  (Z.of_nat i < k)%Z /\ r = current_record (state (Z.of_nat i + 1)).
Proof.
  intros Hk Hr.
  assert (Hi : (i < Z.to_nat k)%nat).
  { rewrite <- state_after_length by exact Hk.
    apply nth_error_Some. congruence. }
  split; [lia|].
  pose proof (state_after_nth k Hk (Z.of_nat i) ltac:(lia)) as Hn.
  rewrite Nat2Z.id in Hn. congruence.
Qed.

(** The principal paid so far is the principal minus the sum of the two
    running balances. *)
Lemma state_after_sum_principal (k : Z) :
  (0 <= k)%Z ->
  sum_principalPortion (schedule (state k)) ==
  principal - (monthly_remaining (state k) + bonus_remaining (state k)).
Proof.
  intros Hk.
  apply (state_after_ind
           (fun _ st => sum_principalPortion (schedule st) ==
                        principal - (monthly_remaining st + bonus_remaining st))).
  - cbn. ring.
  - intros x Hx IH. rewrite body_schedule, sum_principalPortion_snoc, IH.
    rewrite body_principalPortion. ring.
  - exact Hk.
Qed.

(** Every row reports the floored sum of the two balances. *)
Lemma state_after_endingBalance (k : Z) :
  (0 <= k)%Z ->
  endingBalance (current_record (state (k + 1))) =
  max 0 (monthly_remaining (state (k + 1)) + bonus_remaining (state (k + 1))).
Proof.
  intros Hk. rewrite state_after_succ by exact Hk. apply body_endingBalance.
Qed.

End Trace.

(** ** The payment plan *)

Lemma truediv_ok (x y : Q) : ~ y == 0 -> truediv x y = Ok (x / y).
Proof. intros H. unfold truediv. destruct (Qeq_dec y 0); [contradiction | reflexivity]. Qed.

Lemma truediv_zero (x y : Q) : y == 0 -> truediv x y = Raise ZeroDivisionError.
Proof. intros H. unfold truediv. destruct (Qeq_dec y 0); [reflexivity | contradiction]. Qed.

Lemma pow_ok (b : Q) (e : Z) : (0 <= e)%Z -> pow b e = Ok (b ^ e).
Proof.
  intros H. unfold pow. destruct (Z.ltb_spec e 0); [lia | reflexivity].
Qed.

Lemma inject_Z_nonzero (z : Z) : z <> 0%Z -> ~ inject_Z z == 0.
Proof.
  intros Hz H. apply Hz. unfold Qeq, inject_Z in H. cbn in H. lia.
Qed.

Lemma growth_gt_1 (rate : Q) (n : Z) : 0 < rate -> (0 < n)%Z -> 1 < (1 + rate) ^ n.
Proof. intros Hr Hn. apply Qpower_1_lt; [lra | exact Hn]. Qed.

Section Plan.

Variables principal annual_rate : Q.
Variable years : Z.
Variable bonus_principal : Q.
Variable bonus_frequency : Z.

Local Abbreviation monthly_rate := (annual_rate / 100 / 12).
Local Abbreviation num_payments := (years * 12)%Z.
Local Abbreviation bonus_rate := (monthly_rate * inject_Z bonus_frequency).

Lemma monthly_rate_scaled : monthly_rate == annual_rate * (1 # 1200).
Proof. field. Qed.

Lemma monthly_rate_zero : annual_rate == 0 <-> monthly_rate == 0.
Proof. rewrite monthly_rate_scaled. split; intros H; lra. Qed.

Lemma monthly_rate_pos : 0 < annual_rate <-> 0 < monthly_rate.
Proof. rewrite monthly_rate_scaled. split; intros H; lra. Qed.

Lemma monthly_rate_nonneg : 0 <= annual_rate -> 0 <= monthly_rate.
Proof. rewrite monthly_rate_scaled. intros H; lra. Qed.

Lemma plan_zero_rate :
  annual_rate == 0 ->
  years <> 0%Z ->
  (0 < bonus_principal -> bonus_frequency <> 0%Z) ->
  calculate_monthly_payment principal annual_rate years
    bonus_principal bonus_frequency =
  Ok (zero_rate_plan principal years bonus_principal bonus_frequency).
Proof.
  intros Ha Hy Hf. unfold calculate_monthly_payment, zero_rate_plan.
  destruct (Qeq_dec monthly_rate 0) as [_ | Hne].
  2: { exfalso. apply Hne. now apply monthly_rate_zero. }
  rewrite truediv_ok by (apply inject_Z_nonzero; lia). cbn [bind].
  destruct (Qlt_le_dec 0 bonus_principal) as [Hb | Hb]; [|reflexivity].
  rewrite truediv_ok; [reflexivity|].
  apply inject_Z_nonzero. specialize (Hf Hb). lia.
Qed.

Lemma plan_annuity :
  0 < annual_rate ->
  (0 < years)%Z ->
  (0 < bonus_principal -> (0 < bonus_frequency)%Z) ->
  calculate_monthly_payment principal annual_rate years
    bonus_principal bonus_frequency =
  Ok (annuity_plan principal annual_rate years bonus_principal bonus_frequency).
Proof.
  intros Ha Hy Hf. unfold calculate_monthly_payment, annuity_plan.
  assert (Hr : 0 < monthly_rate) by now apply monthly_rate_pos.
  destruct (Qeq_dec monthly_rate 0) as [He | _]; [exfalso; lra|].
  rewrite pow_ok by lia. cbn [bind].
  pose proof (growth_gt_1 monthly_rate num_payments Hr ltac:(lia)) as Hg.
  rewrite truediv_ok by lra. cbn [bind].
  destruct (Qlt_le_dec 0 bonus_principal) as [Hb | Hb]; [|reflexivity].
  rewrite pow_ok by lia. cbn [bind].
  assert (Hbr : 0 < bonus_rate).
  { apply Qmult_lt_0_compat; [exact Hr|].
    change 0 with (inject_Z 0). rewrite <- Zlt_Qlt. auto. }
  pose proof (growth_gt_1 bonus_rate years Hbr Hy) as Hbg.
  rewrite truediv_ok by lra. reflexivity.
Qed.

Lemma plan_years_zero :
  years = 0%Z ->
  calculate_monthly_payment principal annual_rate years
    bonus_principal bonus_frequency = Raise ZeroDivisionError.
Proof.
  intros ->. unfold calculate_monthly_payment.
  destruct (Qeq_dec monthly_rate 0) as [He | Hne].
  - rewrite truediv_zero by reflexivity. reflexivity.
  - cbn [Z.mul]. rewrite pow_ok by lia. cbn [bind].
    rewrite truediv_zero; [reflexivity|]. cbn. reflexivity.
Qed.

End Plan.

(** ** Balances never grow *)

Section Bounds.

Variables monthly_rate monthly_payment bonus_payment : Q.
Variables principal bonus_principal : Q.
Variable bonus_frequency : Z.

(** What the payment plan guarantees on valid terms: each level
    payment covers the interest on its whole sub-principal. *)
Hypothesis rate_nonneg : 0 <= monthly_rate.
Hypothesis bonus_nonneg : 0 <= bonus_principal.
Hypothesis monthly_covers_interest :
  (principal - bonus_principal) * monthly_rate <= monthly_payment.
Hypothesis bonus_covers_interest :
  bonus_principal * monthly_rate <= bonus_payment.

Local Abbreviation body :=
  (loop_body monthly_rate monthly_payment bonus_payment
             (bonus_months_of bonus_frequency)).
Local Abbreviation state k :=
  (state_after monthly_rate monthly_payment bonus_payment
               principal bonus_principal bonus_frequency k).

Lemma body_balances (st : LoopState) (month : Z) :
  balances_bounded principal bonus_principal st ->
  monthly_remaining (body st month) <= monthly_remaining st /\
  0 <= bonus_remaining (body st month) /\
  bonus_remaining (body st month) <= bonus_remaining st.
Proof.
  intros (Hm & Hb0 & Hb).
  assert (Hmi : monthly_remaining st * monthly_rate <= monthly_payment).
  { apply Qle_trans with ((principal - bonus_principal) * monthly_rate);
      [|exact monthly_covers_interest].
    apply Qmult_le_compat_r; assumption. }
  assert (Hbi : bonus_remaining st * monthly_rate <= bonus_payment).
  { apply Qle_trans with (bonus_principal * monthly_rate);
      [|exact bonus_covers_interest].
    apply Qmult_le_compat_r; assumption. }
  split.
  - rewrite body_monthly_remaining. lra.
  - destruct (mem (month mod 12)%Z (bonus_months_of bonus_frequency)) eqn:Hmem.
    + destruct (Qlt_le_dec 0 (bonus_remaining st)) as [Hpos | Hle].
      * rewrite body_bonus_paid by assumption.
        pose proof (min_le_r (bonus_payment - bonus_remaining st * monthly_rate)
                             (bonus_remaining st)) as Hcap.
        pose proof (min_glb (bonus_payment - bonus_remaining st * monthly_rate)
                            (bonus_remaining st) 0 ltac:(lra) ltac:(lra)) as Hge.
        lra.
      * destruct (body_bonus_done monthly_rate monthly_payment bonus_payment
                    (bonus_months_of bonus_frequency) st month Hle) as [-> _].
        lra.
    + destruct (body_no_bonus monthly_rate monthly_payment bonus_payment
                  (bonus_months_of bonus_frequency) st month Hmem) as [-> _].
      lra.
Qed.

Lemma state_balances_bounded (k : Z) :
  (0 <= k)%Z -> balances_bounded principal bonus_principal (state k).
Proof.
  apply (state_after_ind monthly_rate monthly_payment bonus_payment
           principal bonus_principal bonus_frequency
           (fun _ st => balances_bounded principal bonus_principal st)).
  - unfold balances_bounded. cbn. lra.
  - intros x Hx IH.
    destruct (body_balances (state x) (x + 1) IH) as (H1 & H2 & H3).
    destruct IH as (I1 & I2 & I3). unfold balances_bounded. lra.
Qed.

Lemma state_balance_decreasing (k : Z) :
  (0 <= k)%Z ->
  monthly_remaining (state (k + 1)) + bonus_remaining (state (k + 1)) <=
  monthly_remaining (state k) + bonus_remaining (state k).
Proof.
  intros Hk. rewrite state_after_succ by exact Hk.
  destruct (body_balances (state k) (k + 1) (state_balances_bounded k Hk))
    as (H1 & H2 & H3).
  lra.
Qed.

End Bounds.

(** ** The monthly track in closed form *)

Section MonthlyTrack.

Variables monthly_rate monthly_payment bonus_payment : Q.
Variables principal bonus_principal : Q.
Variable bonus_frequency : Z.
Variable num_payments : Z.

Local Abbreviation state k :=
  (state_after monthly_rate monthly_payment bonus_payment
               principal bonus_principal bonus_frequency k).
Local Abbreviation monthly_principal := (principal - bonus_principal).
Local Abbreviation growth := ((1 + monthly_rate) ^ num_payments).

(** With the annuity payment, the balance after [k] periods is
    [monthly_principal * (growth - (1 + rate)^k) / (growth - 1)]. *)
Lemma annuity_balance (k : Z) :
  monthly_payment * (growth - 1) == monthly_principal * (monthly_rate * growth) ->
  (0 <= k)%Z ->
  monthly_remaining (state k) * (growth - 1) ==
  monthly_principal * (growth - (1 + monthly_rate) ^ k).
Proof.
  intros HM.
  apply (state_after_ind monthly_rate monthly_payment bonus_payment
           principal bonus_principal bonus_frequency
           (fun k st => monthly_remaining st * (growth - 1) ==
                        monthly_principal * (growth - (1 + monthly_rate) ^ k))).
  - cbn. ring.
  - intros x Hx IH. rewrite body_monthly_remaining.
    rewrite Qpower_plus' by lia.
    change ((1 + monthly_rate) ^ 1) with (1 + monthly_rate).
    transitivity (monthly_remaining (state x) * (growth - 1) * (1 + monthly_rate)
                  - monthly_payment * (growth - 1)); [ring|].
    rewrite IH, HM. ring.
Qed.

(** With a zero rate and the payment [monthly_principal / n], the
    balance after [k] periods is [monthly_principal * (n - k) / n]. *)
Lemma linear_balance (k : Z) :
  monthly_rate == 0 ->
  monthly_payment * inject_Z num_payments == monthly_principal ->
  (0 <= k)%Z ->
  monthly_remaining (state k) * inject_Z num_payments ==
  monthly_principal * (inject_Z num_payments - inject_Z k).
Proof.
  intros Hr HM.
  apply (state_after_ind monthly_rate monthly_payment bonus_payment
           principal bonus_principal bonus_frequency
           (fun k st => monthly_remaining st * inject_Z num_payments ==
                        monthly_principal * (inject_Z num_payments - inject_Z k))).
  - cbn. ring.
  - intros x Hx IH. rewrite body_monthly_remaining, inject_Z_plus.
    transitivity (monthly_remaining (state x) * inject_Z num_payments
                  * (1 + monthly_rate)
                  - monthly_payment * inject_Z num_payments); [ring|].
    rewrite IH, HM, Hr. ring.
Qed.

(** Without a bonus principal the bonus balance never moves. *)
Lemma bonus_idle (k : Z) :
  bonus_principal <= 0 ->
  (0 <= k)%Z ->
  bonus_remaining (state k) = bonus_principal.
Proof.
  intros HB.
  apply (state_after_ind monthly_rate monthly_payment bonus_payment
           principal bonus_principal bonus_frequency
           (fun _ st => bonus_remaining st = bonus_principal)).
  - reflexivity.
  - intros x Hx IH.
    destruct (body_bonus_done monthly_rate monthly_payment bonus_payment
                (bonus_months_of bonus_frequency) (state x) (x + 1))
      as [-> _]; [rewrite IH; exact HB | exact IH].
Qed.

End MonthlyTrack.

(** ** From the plan to the schedule *)

Section Schedule.

Variables principal annual_rate : Q.
Variable years : Z.
Variable bonus_principal : Q.
Variable bonus_frequency : Z.

Local Abbreviation monthly_rate := (annual_rate / 100 / 12).
Local Abbreviation num_payments := (years * 12)%Z.
Local Abbreviation state_with plan k :=
  (state_after monthly_rate (fst plan) (snd plan)
               principal bonus_principal bonus_frequency k).

Lemma final_state_of_plan (plan : Q * Q) :
  calculate_monthly_payment principal annual_rate years
    bonus_principal bonus_frequency = Ok plan ->
  amortization_final_state principal annual_rate years
    bonus_principal bonus_frequency = Ok (state_with plan num_payments).
Proof.
  intros H. unfold amortization_final_state. rewrite H. cbn [bind].
  now destruct plan.
Qed.

Lemma schedule_of_plan (plan : Q * Q) :
  calculate_monthly_payment principal annual_rate years
    bonus_principal bonus_frequency = Ok plan ->
  calculate_amortization_schedule principal annual_rate years
    bonus_principal bonus_frequency =
  Ok (schedule (state_with plan num_payments)).
Proof.
  intros H. unfold calculate_amortization_schedule.
  now rewrite (final_state_of_plan plan H).
Qed.

Lemma schedule_inv (s : list PeriodRecord) :
  calculate_amortization_schedule principal annual_rate years
    bonus_principal bonus_frequency = Ok s ->
  exists plan,
    calculate_monthly_payment principal annual_rate years
      bonus_principal bonus_frequency = Ok plan /\
    s = schedule (state_with plan num_payments).
Proof.
  unfold calculate_amortization_schedule, amortization_final_state.
  destruct (calculate_monthly_payment principal annual_rate years
              bonus_principal bonus_frequency) as [[M A] | e]; cbn [bind].
  - intros [= <-]. now exists (M, A).
  - discriminate.
Qed.

(** On valid terms the function returns one of the two plans, and
    each level payment covers the interest on its sub-principal. *)
Lemma valid_plan :
  valid_terms principal annual_rate years bonus_principal bonus_frequency ->
  exists plan,
    calculate_monthly_payment principal annual_rate years
      bonus_principal bonus_frequency = Ok plan /\
    (principal - bonus_principal) * monthly_rate <= fst plan /\
    bonus_principal * monthly_rate <= snd plan.
Proof.
  intros (HP & Ha & Hy & HB0 & HB & Hf).
  destruct (Qeq_dec annual_rate 0) as [Hz | Hnz].
  - exists (zero_rate_plan principal years bonus_principal bonus_frequency).
    split; [apply plan_zero_rate; [exact Hz | lia | intros Hb; destruct (Hf Hb); lia]|].
    assert (Hr : monthly_rate == 0) by exact (proj1 (monthly_rate_zero annual_rate) Hz).
    unfold zero_rate_plan. cbn [fst snd]. rewrite Hr, !Qmult_0_r. split.
    + apply Qle_shift_div_l.
      * change 0 with (inject_Z 0). rewrite <- Zlt_Qlt. lia.
      * lra.
    + destruct (Qlt_le_dec 0 bonus_principal) as [Hb | Hb]; [|lra].
      apply Qle_shift_div_l.
      * change 0 with (inject_Z 0). rewrite <- Zlt_Qlt. destruct (Hf Hb); lia.
      * lra.
  - assert (Hpos : 0 < annual_rate).
    { destruct (Qlt_le_dec 0 annual_rate) as [H | H]; [exact H|].
      exfalso. apply Hnz. lra. }
    exists (annuity_plan principal annual_rate years bonus_principal bonus_frequency).
    split; [apply plan_annuity; [exact Hpos | exact Hy | intros Hb; destruct (Hf Hb); lia]|].
    assert (Hr : 0 < monthly_rate) by exact (proj1 (monthly_rate_pos annual_rate) Hpos).
    unfold annuity_plan. cbn [fst snd].
    set (r := monthly_rate) in *.
    pose proof (growth_gt_1 r num_payments Hr ltac:(lia)) as Hg.
    set (g := (1 + r) ^ num_payments) in *.
    split.
    + apply Qle_shift_div_l; [lra|].
      assert (H0 : 0 <= (principal - bonus_principal) * r)
        by (apply Qmult_le_0_compat; lra).
      lra.
    + destruct (Qlt_le_dec 0 bonus_principal) as [Hb | Hb].
      2:{ assert (Hbz : bonus_principal == 0) by lra. rewrite Hbz. lra. }
      assert (Hfreq : 1 <= inject_Z bonus_frequency).
      { change 1 with (inject_Z 1). rewrite <- Zle_Qle. destruct (Hf Hb); lia. }
      assert (Hbr : r <= r * inject_Z bonus_frequency).
      { rewrite <- (Qmult_1_r r) at 1. apply Qmult_le_l; assumption. }
      pose proof (growth_gt_1 (r * inject_Z bonus_frequency) years
                    ltac:(lra) Hy) as Hbg.
      set (br := r * inject_Z bonus_frequency) in *.
      set (bg := (1 + br) ^ years) in *.
      apply Qle_shift_div_l; [lra|].
      apply Qle_trans with (bonus_principal * (br * (bg - 1))).
      * rewrite <- !Qmult_assoc. apply Qmult_le_l; [exact Hb|].
        apply Qmult_le_compat_r; lra.
      * apply Qmult_le_l; [exact Hb|].
        assert (0 <= br) by lra.
        setoid_replace (br * bg) with (br * (bg - 1) + br) by ring. lra.
Qed.

End Schedule.

(** The monthly track is paid off exactly at the end of the term. *)
Lemma monthly_track_paid_off
    (principal annual_rate : Q) (years : Z)
    (bonus_principal : Q) (bonus_frequency : Z) :
  0 <= annual_rate ->
  (0 < years)%Z ->
  (0 < bonus_principal -> (0 < bonus_frequency)%Z) ->
  exists plan,
    calculate_monthly_payment principal annual_rate years
      bonus_principal bonus_frequency = Ok plan /\
    monthly_remaining
      (state_after (annual_rate / 100 / 12) (fst plan) (snd plan)
         principal bonus_principal bonus_frequency (years * 12)) == 0.
Proof.
  intros Ha Hy Hf.
  assert (Hn : ~ inject_Z (years * 12) == 0) by (apply inject_Z_nonzero; lia).
  destruct (Qeq_dec annual_rate 0) as [Hz | Hnz].
  - exists (zero_rate_plan principal years bonus_principal bonus_frequency).
    split.
    { apply plan_zero_rate; [exact Hz | lia | intros Hb; specialize (Hf Hb); lia]. }
    pose proof (proj1 (monthly_rate_zero annual_rate) Hz) as Hr.
    pose proof (linear_balance (annual_rate / 100 / 12)
                  (fst (zero_rate_plan principal years bonus_principal bonus_frequency))
                  (snd (zero_rate_plan principal years bonus_principal bonus_frequency))
                  principal bonus_principal bonus_frequency (years * 12)
                  (years * 12) Hr) as Hlin.
    cbn [zero_rate_plan fst snd] in *.
    assert (HM : (principal - bonus_principal) / inject_Z (years * 12)
                 * inject_Z (years * 12) == principal - bonus_principal)
      by (field; exact Hn).
    specialize (Hlin HM ltac:(lia)).
    setoid_replace ((principal - bonus_principal)
                    * (inject_Z (years * 12) - inject_Z (years * 12)))
      with 0 in Hlin by ring.
    destruct (Qmult_integral _ _ Hlin) as [H | H]; [exact H | contradiction].
  - assert (Hpos : 0 < annual_rate).
    { destruct (Qlt_le_dec 0 annual_rate) as [H | H]; [exact H|].
      exfalso. apply Hnz. lra. }
    exists (annuity_plan principal annual_rate years bonus_principal bonus_frequency).
    split.
    { apply plan_annuity; assumption. }
    pose proof (proj1 (monthly_rate_pos annual_rate) Hpos) as Hr.
    pose proof (growth_gt_1 (annual_rate / 100 / 12) (years * 12) Hr ltac:(lia)) as Hg.
    pose proof (annuity_balance (annual_rate / 100 / 12)
                  (fst (annuity_plan principal annual_rate years bonus_principal bonus_frequency))
                  (snd (annuity_plan principal annual_rate years bonus_principal bonus_frequency))
                  principal bonus_principal bonus_frequency (years * 12)
                  (years * 12)) as Hann.
    cbn [annuity_plan fst snd] in *.
    set (r := annual_rate / 100 / 12) in *.
    set (g := (1 + r) ^ (years * 12)) in *.
    assert (HM : (principal - bonus_principal) * (r * g) / (g - 1) * (g - 1)
                 == (principal - bonus_principal) * (r * g))
      by (field; lra).
    specialize (Hann HM ltac:(lia)).
    setoid_replace ((principal - bonus_principal) * (g - g)) with 0 in Hann by ring.
    destruct (Qmult_integral _ _ Hann) as [H | H]; [exact H | exfalso; lra].
Qed.

(** * The payment calculator *)

(** C2, as stated, fails: [calculate_monthly_payment] does not reject
    every argument combination listed by [rejected_terms].  With a
    principal of -1200 over one year at rate 0 it returns a plan. *)
Lemma calculate_monthly_payment_accepts_negative_principal :
  ~ (forall principal annual_rate years bonus_principal bonus_frequency,
        rejected_terms principal annual_rate years bonus_principal bonus_frequency ->
        exists e,
          calculate_monthly_payment principal annual_rate years
            bonus_principal bonus_frequency = Raise e).
Proof.
  intros H.
  destruct (H (-1200) 0 1%Z 0 2%Z) as [e He].
  - left. lra.
  - vm_compute in He. discriminate He.
Qed.



(** In exact arithmetic: on valid terms with a positive annual rate, with
    [r = annual_rate / 100 / 12] and [n = years * 12], the monthly
    payment is [(principal - bonus_principal) * (r * (1 + r)^n) / ((1 + r)^n - 1)];
    the bonus payment is
    [bonus_principal * (R * (1 + R)^years) / ((1 + R)^years - 1)] with
    [R = r * bonus_frequency] when there is a bonus principal, and 0
    when the bonus principal is 0. *)
Lemma annuity_plan_formula
    (principal annual_rate : Q) (years : Z)
    (bonus_principal : Q) (bonus_frequency : Z) :
  valid_terms principal annual_rate years bonus_principal bonus_frequency ->
  0 < annual_rate ->
  let r := annual_rate / 100 / 12 in
  let n := (years * 12)%Z in
  let R := r * inject_Z bonus_frequency in
  exists monthly_payment bonus_payment,
    calculate_monthly_payment principal annual_rate years
      bonus_principal bonus_frequency = Ok (monthly_payment, bonus_payment) /\
    monthly_payment ==
      (principal - bonus_principal) * (r * (1 + r) ^ n) / ((1 + r) ^ n - 1) /\
    (0 < bonus_principal ->
     bonus_payment ==
       bonus_principal * (R * (1 + R) ^ years) / ((1 + R) ^ years - 1)) /\
    (bonus_principal == 0 -> bonus_payment == 0).
Proof.
  intros (HP & Ha & Hy & HB0 & HB & Hf) Hpos r n R.
  pose proof (plan_annuity principal annual_rate years bonus_principal
                bonus_frequency Hpos Hy
                ltac:(intros Hb; destruct (Hf Hb); lia)) as Hplan.
  unfold annuity_plan in Hplan.
  eexists _, _. split; [exact Hplan|].
  split; [reflexivity|]. split.
  - intros Hb. destruct (Qlt_le_dec 0 bonus_principal); [reflexivity | exfalso; lra].
  - intros Hb. destruct (Qlt_le_dec 0 bonus_principal); [exfalso; lra | reflexivity].
Qed.

(** * The schedule simulator *)

(** In exact arithmetic: on valid terms (the rate is then non-negative)
    the ending balance of a row is at most that of the row before it. *)
Lemma endingBalance_non_increasing
    (principal annual_rate : Q) (years : Z)
    (bonus_principal : Q) (bonus_frequency : Z) :
  valid_terms principal annual_rate years bonus_principal bonus_frequency ->
  exists sched,
    calculate_amortization_schedule principal annual_rate years
      bonus_principal bonus_frequency = Ok sched /\
    forall i r1 r2,
      nth_error sched i = Some r1 ->
      nth_error sched (S i) = Some r2 ->
      endingBalance r2 <= endingBalance r1.
Proof.
  intros Hv.
  destruct (valid_plan _ _ _ _ _ Hv) as (plan & Hplan & HM & HA).
  destruct Hv as (_ & Ha & Hy & HB0 & _).
  eexists. split; [exact (schedule_of_plan _ _ _ _ _ _ Hplan)|].
  intros i r1 r2 H1 H2.
  apply state_after_nth_inv in H1; [|lia].
  apply state_after_nth_inv in H2; [|lia].
  destruct H1 as [_ ->]. destruct H2 as [Hlt ->].
  rewrite Nat2Z.inj_succ. unfold Z.succ.
  rewrite !state_after_endingBalance by lia.
  apply max_0_mono.
  apply state_balance_decreasing; try assumption; try lia.
  now apply monthly_rate_nonneg.
Qed.

(** In exact arithmetic: in every row of every schedule returned, the
    principal and interest portions add up to the total payment, and
    the total payment is the monthly portion, which is the level
    monthly payment of the plan, plus the bonus portion. *)
Lemma record_accounting_identity
    (principal annual_rate : Q) (years : Z)
    (bonus_principal : Q) (bonus_frequency : Z)
    (sched : list PeriodRecord) :
  calculate_amortization_schedule principal annual_rate years
    bonus_principal bonus_frequency = Ok sched ->
  exists plan,
    calculate_monthly_payment principal annual_rate years
      bonus_principal bonus_frequency = Ok plan /\
    Forall (fun rec =>
              principalPortion rec + interestPortion rec == totalPayment rec /\
              totalPayment rec ==
                monthlyPortionPayment rec + bonusPortionPayment rec /\
              monthlyPortionPayment rec = fst plan)
           sched.
Proof.
  intros Hs.
  destruct (schedule_inv _ _ _ _ _ _ Hs) as (plan & Hplan & ->).
  exists plan. split; [exact Hplan|].
  apply fold_schedule_Forall; [|constructor].
  intros st month. split; [apply body_accounting|].
  rewrite body_totalPayment, body_monthlyPortionPayment.
  split; reflexivity.
Qed.

(** In exact arithmetic: on valid terms without a bonus principal, the
    last row of the schedule has ending balance 0 and the principal
    portions of all rows add up to the principal. *)
Lemma schedule_amortizes_without_bonus
    (principal annual_rate : Q) (years : Z)
    (bonus_principal : Q) (bonus_frequency : Z) :
  valid_terms principal annual_rate years bonus_principal bonus_frequency ->
  bonus_principal == 0 ->
  exists sched last_row,
    calculate_amortization_schedule principal annual_rate years
      bonus_principal bonus_frequency = Ok sched /\
    nth_error sched (length sched - 1) = Some last_row /\
    endingBalance last_row == 0 /\
    sum_principalPortion sched == principal.
Proof.
  intros (HP & Ha & Hy & HB0 & HB & Hf) HBz.
  destruct (monthly_track_paid_off principal annual_rate years
              bonus_principal bonus_frequency Ha Hy
              ltac:(intros Hb; exfalso; lra)) as (plan & Hplan & Hm).
  pose proof (bonus_idle (annual_rate / 100 / 12) (fst plan) (snd plan)
                principal bonus_principal bonus_frequency (years * 12)
                ltac:(lra) ltac:(lia)) as Hb.
  eexists _, _. split; [exact (schedule_of_plan _ _ _ _ _ _ Hplan)|].
  rewrite state_after_length by lia.
  split; [|split].
  - replace (Z.to_nat (years * 12) - 1)%nat with (Z.to_nat (years * 12 - 1)) by lia.
    apply state_after_nth; lia.
  - replace (years * 12 - 1 + 1)%Z with (years * 12)%Z by lia.
    replace (years * 12)%Z with (years * 12 - 1 + 1)%Z at 1 by lia.
    rewrite state_after_endingBalance by lia.
    replace (years * 12 - 1 + 1)%Z with (years * 12)%Z by lia.
    apply max_0_of_zero. rewrite Hb, Hm, HBz. reflexivity.
  - rewrite state_after_sum_principal by lia. rewrite Hb, Hm, HBz. ring.
Qed.

(** * The bonus months *)

(** [month % 12] lies in 0..11, so the entry 12 of [bonus_months] is
    never met: no month is a bonus month for frequency 1, and for
    frequency 2 only the months with remainder 6 are. *)
Lemma december_is_never_a_bonus_month (bonus_frequency month : Z) :
  (month mod 12 = 0)%Z ->
  mem (month mod 12)%Z (bonus_months_of bonus_frequency) = false.
Proof.
  intros ->. unfold bonus_months_of.
  destruct (bonus_frequency =? 2)%Z; [reflexivity|].
  destruct (bonus_frequency =? 1)%Z; reflexivity.
Qed.

Lemma yearly_frequency_has_no_bonus_month (month : Z) :
  mem (month mod 12)%Z (bonus_months_of 1) = false.
Proof.
  cbn. pose proof (Z.mod_pos_bound month 12 ltac:(lia)) as Hb.
  destruct (Z.eqb_spec (month mod 12) 12); [lia | reflexivity].
Qed.

(** With one bonus a year the bonus balance is never touched. *)
Lemma yearly_bonus_never_paid
    (monthly_rate monthly_payment bonus_payment principal bonus_principal : Q)
    (k : Z) :
  (0 <= k)%Z ->
  bonus_remaining
    (state_after monthly_rate monthly_payment bonus_payment
       principal bonus_principal 1 k) = bonus_principal.
Proof.
  apply (state_after_ind monthly_rate monthly_payment bonus_payment
           principal bonus_principal 1
           (fun _ st => bonus_remaining st = bonus_principal)).
  - reflexivity.
  - intros x Hx IH.
    destruct (body_no_bonus monthly_rate monthly_payment bonus_payment
                (bonus_months_of 1)
                (state_after monthly_rate monthly_payment bonus_payment
                   principal bonus_principal 1 x)
                (x + 1) (yearly_frequency_has_no_bonus_month (x + 1)))
      as [-> _].
    exact IH.
Qed.

(** C1, on the code: with principal 1200, rate 0, one year, bonus
    principal 600 and bonus frequency 2, period 12 has remainder 0
    modulo 12 and the bonus balance is still positive before it, yet
    the row of period 12 has a zero bonus portion and the bonus balance
    is left as it was. *)
Theorem period_12_bonus_skipped :
  exists plan sched rec,
    calculate_monthly_payment 1200 0 1 600 2 = Ok plan /\
    calculate_amortization_schedule 1200 0 1 600 2 = Ok sched /\
    nth_error sched 11 = Some rec /\
    periodIndex rec = 12%Z /\
    (periodIndex rec mod 12 = 0)%Z /\
    0 < bonus_remaining
          (state_after (0 / 100 / 12) (fst plan) (snd plan) 1200 600 2 11) /\
    bonusPortionPayment rec = 0 /\
    bonus_remaining
      (state_after (0 / 100 / 12) (fst plan) (snd plan) 1200 600 2 12) =
    bonus_remaining
      (state_after (0 / 100 / 12) (fst plan) (snd plan) 1200 600 2 11).
Proof.
  assert (Hplan : calculate_monthly_payment 1200 0 1 600 2 =
                  Ok (zero_rate_plan 1200 1 600 2)) by reflexivity.
  set (plan := zero_rate_plan 1200 1 600 2) in *.
  pose proof (state_after_nth (0 / 100 / 12) (fst plan) (snd plan) 1200 600 2
                12 ltac:(lia) 11 ltac:(lia)) as Hnth.
  pose proof (state_after_succ (0 / 100 / 12) (fst plan) (snd plan) 1200 600 2
                11 ltac:(lia)) as Hsucc.
  change (11 + 1)%Z with 12%Z in *.
  destruct (body_no_bonus (0 / 100 / 12) (fst plan) (snd plan)
              (bonus_months_of 2)
              (state_after (0 / 100 / 12) (fst plan) (snd plan) 1200 600 2 11)
              12 (december_is_never_a_bonus_month 2 12 eq_refl)) as [Hb Hp].
  rewrite <- Hsucc in Hb, Hp.
  exists plan. eexists _, _.
  split; [exact Hplan|].
  split; [exact (schedule_of_plan _ _ _ _ _ _ Hplan)|].
  split; [exact Hnth|].
  assert (Hidx : periodIndex
                   (current_record
                      (state_after (0 / 100 / 12) (fst plan) (snd plan)
                         1200 600 2 12)) = 12%Z)
    by (rewrite Hsucc; apply body_periodIndex).
  split; [exact Hidx|].
  split; [rewrite Hidx; reflexivity|].
  split; [lazy; reflexivity|].
  split; [exact Hp | exact Hb].
Qed.

(** C6, on the code: with principal 1200, rate 0, one year, bonus
    principal 600 and bonus frequency 2, the loop ends with a bonus
    balance of 300 and the principal portions add up to 900; with bonus
    frequency 1 it ends with the whole bonus principal of 600 unpaid and
    the principal portions add up to 600. *)
Theorem bonus_track_left_unpaid :
  (exists st,
     amortization_final_state 1200 0 1 600 2 = Ok st /\
     calculate_amortization_schedule 1200 0 1 600 2 = Ok (schedule st) /\
     bonus_remaining st == 300 /\
     sum_principalPortion (schedule st) == 900) /\
  (exists st,
     amortization_final_state 1200 0 1 600 1 = Ok st /\
     calculate_amortization_schedule 1200 0 1 600 1 = Ok (schedule st) /\
     bonus_remaining st == 600 /\
     sum_principalPortion (schedule st) == 600).
Proof.
  split.
  - destruct (monthly_track_paid_off 1200 0 1 600 2)
      as (plan & Hplan & Hm); [lra | lia | lia |].
    assert (Hb : bonus_remaining
                   (state_after (0 / 100 / 12) (fst plan) (snd plan)
                      1200 600 2 (1 * 12)) == 300).
    { assert (Hp : Ok plan = Ok (zero_rate_plan 1200 1 600 2))
        by (rewrite <- Hplan; reflexivity).
      injection Hp as ->. lazy. reflexivity. }
    eexists. split; [exact (final_state_of_plan _ _ _ _ _ _ Hplan)|].
    split; [exact (schedule_of_plan _ _ _ _ _ _ Hplan)|].
    split; [exact Hb|].
    rewrite state_after_sum_principal by lia. rewrite Hm, Hb. reflexivity.
  - destruct (monthly_track_paid_off 1200 0 1 600 1)
      as (plan & Hplan & Hm); [lra | lia | lia |].
    assert (Hb : bonus_remaining
                   (state_after (0 / 100 / 12) (fst plan) (snd plan)
                      1200 600 1 (1 * 12)) == 600).
    { rewrite yearly_bonus_never_paid by lia. reflexivity. }
    eexists. split; [exact (final_state_of_plan _ _ _ _ _ _ Hplan)|].
    split; [exact (schedule_of_plan _ _ _ _ _ _ Hplan)|].
    split; [exact Hb|].
    rewrite state_after_sum_principal by lia. rewrite Hm, Hb. reflexivity.
Qed.

(** * The bonus rows *)

Section Rows.

Variables monthly_rate monthly_payment bonus_payment : Q.
Variables principal bonus_principal : Q.
Variable bonus_frequency : Z.

Local Abbreviation body :=
  (loop_body monthly_rate monthly_payment bonus_payment
             (bonus_months_of bonus_frequency)).
Local Abbreviation state k :=
  (state_after monthly_rate monthly_payment bonus_payment
               principal bonus_principal bonus_frequency k).

(** A row has a bonus portion only in a month whose remainder modulo 12
    is listed in [bonus_months]. *)
Lemma body_bonus_only_listed (st : LoopState) (month : Z) :
  ~ bonusPortionPayment (current_record (body st month)) == 0 ->
  mem (month mod 12)%Z (bonus_months_of bonus_frequency) = true.
Proof.
  intros Hp.
  destruct (mem (month mod 12)%Z (bonus_months_of bonus_frequency)) eqn:Hm;
    [reflexivity|].
  exfalso. apply Hp.
  destruct (body_no_bonus monthly_rate monthly_payment bonus_payment
              (bonus_months_of bonus_frequency) st month Hm) as [_ ->].
  reflexivity.
Qed.

End Rows.

(** The only remainder of [month % 12] that [bonus_months] can meet is
    6, and only for a bonus frequency of 2. *)
Lemma bonus_month_is_june (bonus_frequency month : Z) :
  mem (month mod 12)%Z (bonus_months_of bonus_frequency) = true ->
  bonus_frequency = 2%Z /\ (month mod 12 = 6)%Z.
Proof.
  pose proof (Z.mod_pos_bound month 12 ltac:(lia)) as Hb.
  unfold bonus_months_of.
  destruct (Z.eqb_spec bonus_frequency 2) as [-> | _].
  - cbn. destruct (Z.eqb_spec (month mod 12) 6) as [-> | _]; [auto|].
    destruct (Z.eqb_spec (month mod 12) 12); [lia | discriminate].
  - destruct (bonus_frequency =? 1)%Z; cbn; [|discriminate].
    destruct (Z.eqb_spec (month mod 12) 12); [lia | discriminate].
Qed.

(** Whatever the arguments, a row of a returned schedule has a bonus
    portion only if the bonus frequency is 2 and the period index has
    remainder 6 modulo 12. *)
Theorem bonus_portion_only_in_june_rows
    (principal annual_rate : Q) (years : Z)
    (bonus_principal : Q) (bonus_frequency : Z)
    (sched : list PeriodRecord) :
  calculate_amortization_schedule principal annual_rate years
    bonus_principal bonus_frequency = Ok sched ->
  Forall (fun rec =>
            ~ bonusPortionPayment rec == 0 ->
            bonus_frequency = 2%Z /\ (periodIndex rec mod 12 = 6)%Z)
         sched.
Proof.
  intros Hs.
  destruct (schedule_inv _ _ _ _ _ _ Hs) as (plan & _ & ->).
  apply fold_schedule_Forall; [|constructor].
  intros st month Hp.
  apply body_bonus_only_listed in Hp. apply bonus_month_is_june in Hp.
  rewrite body_periodIndex. exact Hp.
Qed.

Lemma bonus_portion_only_in_june_rows_witness :
  let sched :=
    schedule (state_after (0 / 100 / 12)
                ((1200 - 600) / inject_Z (1 * 12)) (600 / inject_Z (1 * 2))
                1200 600 2 (1 * 12)) in
  calculate_amortization_schedule 1200 0 1 600 2 = Ok sched /\
  Forall (fun rec =>
            ~ bonusPortionPayment rec == 0 ->
            2%Z = 2%Z /\ (periodIndex rec mod 12 = 6)%Z)
         sched.
Proof.
  intros sched.
  assert (Hs : calculate_amortization_schedule 1200 0 1 600 2 = Ok sched)
    by reflexivity.
  split; [exact Hs|].
  exact (bonus_portion_only_in_june_rows 1200 0 1 600 2 sched Hs).
Defined.

(** * Intervals of months *)

Lemma in_range (lo hi j : Z) : In j (range lo hi) <-> (lo <= j < hi)%Z.
Proof.
  unfold range. rewrite in_map_iff. split.
  - intros (i & <- & Hi). apply in_seq in Hi. lia.
  - intros Hj. exists (Z.to_nat (j - lo)). split; [lia|].
    apply in_seq. lia.
Qed.

Lemma range_app (lo mid hi : Z) :
  (lo <= mid <= hi)%Z -> range lo hi = range lo mid ++ range mid hi.
Proof.
  intros [H1 H2]. pattern hi.
  apply Zlt_lower_bound_ind with (z := mid); [|exact H2].
  intros x IH Hx.
  destruct (Z.eq_dec x mid) as [-> | Hne].
  - rewrite (range_nil mid mid) by lia. now rewrite app_nil_r.
  - replace x with (x - 1 + 1)%Z by lia.
    rewrite (range_snoc lo (x - 1)) by lia.
    rewrite (range_snoc mid (x - 1)) by lia.
    rewrite (IH (x - 1)%Z) by lia. now rewrite app_assoc.
Qed.

Lemma filter_range (lo hi n : Z) :
  (0 <= lo)%Z ->
  (0 <= n)%Z ->
  filter (fun j => (lo <? j)%Z && (j <=? hi)%Z) (range 1 (n + 1)) =
  range (lo + 1) (Z.min hi n + 1).
Proof.
  intros Hlo Hn. pattern n. apply natlike_ind; [ | | exact Hn].
  - cbn. rewrite range_nil by lia. reflexivity.
  - intros x Hx IH. unfold Z.succ.
    rewrite (range_snoc 1 (x + 1)) by lia.
    rewrite filter_app, IH. cbn [filter].
    destruct (Z.ltb_spec lo (x + 1)) as [H1 | H1];
      destruct (Z.leb_spec (x + 1) hi) as [H2 | H2]; cbn [andb].
    + replace (Z.min hi x) with x by lia.
      replace (Z.min hi (x + 1)) with (x + 1)%Z by lia.
      now rewrite (range_snoc (lo + 1) (x + 1)) by lia.
    + rewrite app_nil_r. f_equal. lia.
    + rewrite app_nil_r. rewrite !range_nil by lia. reflexivity.
    + rewrite app_nil_r. f_equal. lia.
Qed.

Lemma filter_map_comm {A B : Type} (p : B -> bool) (f : A -> B) (l : list A) :
  filter p (map f l) = map f (filter (fun x => p (f x)) l).
Proof.
  induction l as [|x l IH]; cbn; [reflexivity|].
  destruct (p (f x)); cbn; now rewrite IH.
Qed.

Lemma last_map_range {A : Type} (f : Z -> A) (lo hi : Z) (d : A) :
  (lo <= hi)%Z -> last (map f (range lo (hi + 1))) d = f hi.
Proof.
  intros H. rewrite range_snoc by exact H. rewrite map_app. cbn.
  apply last_last.
Qed.

Lemma nth_error_range (lo hi i : Z) :
  (0 <= i < hi - lo)%Z ->
  nth_error (range lo hi) (Z.to_nat i) = Some (lo + i)%Z.
Proof.
  intros Hi. unfold range.
  rewrite nth_error_map, nth_error_seq.
  destruct (Nat.ltb_spec (Z.to_nat i) (Z.to_nat (hi - lo))) as [_ | H]; [|lia].
  cbn. f_equal. lia.
Qed.

Lemma nth_error_range_inv (lo hi : Z) (i : nat) (j : Z) :
  nth_error (range lo hi) i = Some j -> j = (lo + Z.of_nat i)%Z /\ (j < hi)%Z.
Proof.
  intros H.
  assert (Hi : (i < length (range lo hi))%nat) by (apply nth_error_Some; congruence).
  rewrite range_length in Hi.
  pose proof (nth_error_range lo hi (Z.of_nat i) ltac:(lia)) as Hn.
  rewrite Nat2Z.id in Hn. rewrite Hn in H. injection H as <-. lia.
Qed.

(** * The form *)



(** * The binary64 code: the loop *)

Section Binary64Loop.

Local Open Scope float_scope.

Variables monthly_rate monthly_payment bonus_payment : float.
Variable bonus_months : list Z.

Local Abbreviation body :=
  (Binary64.loop_body monthly_rate monthly_payment bonus_payment bonus_months).

Ltac b64_body_cases st month :=
  unfold Binary64.loop_body, Binary64.current_record;
  destruct (mem (month mod 12)%Z bonus_months);
  destruct (0 <? Binary64.bonus_remaining st);
  cbn [andb Binary64.schedule Binary64.remaining_balance
       Binary64.bonus_remaining Binary64.monthly_remaining].

Lemma b64_body_schedule (st : Binary64.LoopState) (month : Z) :
  Binary64.schedule (body st month) =
  Binary64.schedule st ++ [Binary64.current_record (body st month)].
Proof. b64_body_cases st month; now rewrite last_last. Qed.

Lemma b64_body_periodIndex (st : Binary64.LoopState) (month : Z) :
  Binary64.periodIndex (Binary64.current_record (body st month)) = month.
Proof. b64_body_cases st month; now rewrite last_last. Qed.

Lemma b64_body_monthlyPortionPayment (st : Binary64.LoopState) (month : Z) :
  Binary64.monthlyPortionPayment (Binary64.current_record (body st month)) =
  monthly_payment.
Proof. b64_body_cases st month; now rewrite last_last. Qed.

Lemma b64_body_totalPayment (st : Binary64.LoopState) (month : Z) :
  Binary64.totalPayment (Binary64.current_record (body st month)) =
  monthly_payment +
  Binary64.bonusPortionPayment (Binary64.current_record (body st month)).
Proof. b64_body_cases st month; now rewrite last_last. Qed.

Lemma b64_body_endingBalance (st : Binary64.LoopState) (month : Z) :
  Binary64.endingBalance (Binary64.current_record (body st month)) =
  Binary64.max 0 (Binary64.monthly_remaining (body st month) +
                  Binary64.bonus_remaining (body st month)).
Proof. b64_body_cases st month; now rewrite last_last. Qed.

Lemma b64_fold_periodIndex (months : list Z) (st : Binary64.LoopState) :
  map Binary64.periodIndex (Binary64.schedule (fold_left body months st)) =
  map Binary64.periodIndex (Binary64.schedule st) ++ months.
Proof.
  revert st. induction months as [|m ms IH]; intros st; cbn [fold_left].
  - now rewrite app_nil_r.
  - rewrite IH, b64_body_schedule, map_app, <- app_assoc. cbn.
    now rewrite b64_body_periodIndex.
Qed.

Lemma b64_fold_schedule_Forall (P : Binary64.PeriodRecord -> Prop) :
  (forall st month, P (Binary64.current_record (body st month))) ->
  forall months st,
    Forall P (Binary64.schedule st) ->
    Forall P (Binary64.schedule (fold_left body months st)).
Proof.
  intros HP months. induction months as [|m ms IH]; intros st Hst; cbn [fold_left].
  - exact Hst.
  - apply IH. rewrite b64_body_schedule. apply Forall_app. split; [exact Hst|].
    constructor; [apply HP | constructor].
Qed.

End Binary64Loop.

Section Binary64Trace.

Local Open Scope float_scope.

Variables monthly_rate monthly_payment bonus_payment : float.
Variables principal bonus_principal : float.
Variable bonus_frequency : Z.

Local Abbreviation body :=
  (Binary64.loop_body monthly_rate monthly_payment bonus_payment
                      (bonus_months_of bonus_frequency)).
Local Abbreviation state k :=
  (Binary64.state_after monthly_rate monthly_payment bonus_payment
                        principal bonus_principal bonus_frequency k).
Local Abbreviation row := (fun j => Binary64.current_record (state j)).

Lemma b64_state_after_succ (k : Z) :
  (0 <= k)%Z -> state (k + 1) = body (state k) (k + 1)%Z.
Proof.
  intros Hk. unfold Binary64.state_after.
  rewrite (range_snoc 1 (k + 1)) by lia. now rewrite fold_left_app.
Qed.

Lemma b64_state_after_length (k : Z) :
  length (Binary64.schedule (state k)) = Z.to_nat k.
Proof.
  rewrite <- (length_map Binary64.periodIndex). unfold Binary64.state_after.
  rewrite b64_fold_periodIndex. cbn [Binary64.initial_state Binary64.schedule map app].
  rewrite range_length. f_equal. lia.
Qed.

Lemma b64_schedule_as_map (k : Z) :
  Binary64.schedule (state k) = map row (range 1 (k + 1)).
Proof.
  destruct (Z.le_gt_cases 0 k) as [Hk | Hk].
  - pattern k. apply natlike_ind; [reflexivity | | exact Hk].
    intros x Hx IH. unfold Z.succ.
    rewrite b64_state_after_succ by exact Hx.
    rewrite b64_body_schedule, <- b64_state_after_succ by exact Hx.
    rewrite (range_snoc 1 (x + 1)) by lia.
    now rewrite map_app, IH.
  - unfold Binary64.state_after. rewrite !range_nil by lia. reflexivity.
Qed.

Lemma b64_current_periodIndex (j : Z) :
  (1 <= j)%Z -> Binary64.periodIndex (Binary64.current_record (state j)) = j.
Proof.
  intros Hj. replace j with (j - 1 + 1)%Z at 1 by lia.
  rewrite b64_state_after_succ by lia. rewrite b64_body_periodIndex. lia.
Qed.

Lemma b64_current_endingBalance (j : Z) :
  (1 <= j)%Z ->
  Binary64.endingBalance (Binary64.current_record (state j)) =
  Binary64.max 0 (Binary64.monthly_remaining (state j) +
                  Binary64.bonus_remaining (state j)).
Proof.
  intros Hj. replace j with (j - 1 + 1)%Z by lia.
  rewrite b64_state_after_succ by lia. apply b64_body_endingBalance.
Qed.

(** Row [i] of the schedule is the row emitted in period [i + 1]. *)
Lemma b64_state_after_nth_inv (k : Z) (i : nat) (r : Binary64.PeriodRecord) :
  nth_error (Binary64.schedule (state k)) i = Some r ->
  (Z.of_nat i < k)%Z /\
  r = Binary64.current_record (state (Z.of_nat i + 1)).
Proof.
  intros Hr.
  assert (Hi : (i < Z.to_nat k)%nat).
  { rewrite <- b64_state_after_length. apply nth_error_Some. congruence. }
  split; [lia|].
  rewrite b64_schedule_as_map, nth_error_map in Hr.
  pose proof (nth_error_range 1 (k + 1) (Z.of_nat i) ltac:(lia)) as Hn.
  rewrite Nat2Z.id in Hn. rewrite Hn in Hr. cbn [option_map] in Hr.
  replace (1 + Z.of_nat i)%Z with (Z.of_nat i + 1)%Z in Hr by lia.
  congruence.
Qed.

(** The rows selected for [year] are those of its twelve months. *)
Lemma b64_year_data_full (n year : Z) :
  (1 <= year)%Z ->
  (year * 12 <= n)%Z ->
  Binary64.year_data (Binary64.schedule (state n)) year =
  map row (range ((year - 1) * 12 + 1) (year * 12 + 1)).
Proof.
  intros Hy Hn. unfold Binary64.year_data.
  rewrite b64_schedule_as_map, filter_map_comm.
  rewrite (filter_ext_in _
             (fun j => ((year - 1) * 12 <? j)%Z && (j <=? year * 12)%Z)).
  - rewrite filter_range by lia.
    now replace (Z.min (year * 12) n) with (year * 12)%Z by lia.
  - intros j Hj. apply in_range in Hj.
    now rewrite b64_current_periodIndex by lia.
Qed.

Lemma b64_year_data_length (n year : Z) :
  (1 <= year)%Z ->
  (year * 12 <= n)%Z ->
  length (Binary64.year_data (Binary64.schedule (state n)) year) = 12%nat.
Proof.
  intros Hy Hn. rewrite b64_year_data_full by assumption.
  rewrite length_map, range_length. lia.
Qed.

Lemma b64_year_data_last (n year : Z) :
  (1 <= year)%Z ->
  (year * 12 <= n)%Z ->
  last (Binary64.year_data (Binary64.schedule (state n)) year)
       Binary64.blank_record =
  Binary64.current_record (state (year * 12)).
Proof.
  intros Hy Hn. rewrite b64_year_data_full by assumption.
  apply (last_map_range row). lia.
Qed.

(** The year blocks 1..y, one after the other, are the first [12 y]
    rows. *)
Lemma b64_years_concat (n y : Z) :
  (0 <= y)%Z ->
  (y * 12 <= n)%Z ->
  concat (map (Binary64.year_data (Binary64.schedule (state n)))
              (range 1 (y + 1))) =
  map row (range 1 (y * 12 + 1)).
Proof.
  intros Hy. pattern y. apply natlike_ind; [ | | exact Hy].
  - intros _. reflexivity.
  - intros x Hx IH Hle. unfold Z.succ in *.
    rewrite (range_snoc 1 (x + 1)) by lia.
    rewrite map_app, concat_app. cbn [map concat]. rewrite app_nil_r.
    rewrite IH by lia.
    rewrite b64_year_data_full by lia.
    rewrite (range_app 1 (x * 12 + 1) ((x + 1) * 12 + 1)) by lia.
    rewrite map_app.
    now replace ((x + 1 - 1) * 12 + 1)%Z with (x * 12 + 1)%Z by lia.
Qed.

End Binary64Trace.

(** * The binary64 code: from the plan to the schedule *)

Lemma b64_schedule_of_plan
    (principal annual_rate : float) (years : Z)
    (bonus_principal : float) (bonus_frequency : Z) (plan : float * float) :
  Binary64.calculate_monthly_payment principal annual_rate years
    bonus_principal bonus_frequency = Binary64.Ok plan ->
  Binary64.calculate_amortization_schedule principal annual_rate years
    bonus_principal bonus_frequency =
  Binary64.Ok
    (Binary64.schedule
       (Binary64.state_after (annual_rate / 100 / 12)%float (fst plan) (snd plan)
          principal bonus_principal bonus_frequency (years * 12))).
Proof.
  intros H.
  unfold Binary64.calculate_amortization_schedule,
    Binary64.amortization_final_state.
  rewrite H. cbn [Binary64.bind]. now destruct plan.
Qed.

Lemma b64_schedule_inv
    (principal annual_rate : float) (years : Z)
    (bonus_principal : float) (bonus_frequency : Z)
    (s : list Binary64.PeriodRecord) :
  Binary64.calculate_amortization_schedule principal annual_rate years
    bonus_principal bonus_frequency = Binary64.Ok s ->
  exists plan,
    Binary64.calculate_monthly_payment principal annual_rate years
      bonus_principal bonus_frequency = Binary64.Ok plan /\
    s = Binary64.schedule
          (Binary64.state_after (annual_rate / 100 / 12)%float
             (fst plan) (snd plan)
             principal bonus_principal bonus_frequency (years * 12)).
Proof.
  unfold Binary64.calculate_amortization_schedule,
    Binary64.amortization_final_state.
  destruct (Binary64.calculate_monthly_payment principal annual_rate years
              bonus_principal bonus_frequency) as [[M A] | e];
    cbn [Binary64.bind].
  - intros [= <-]. now exists (M, A).
  - discriminate.
Qed.

(** The floor of the balance is 0 or positive, never negative and never
    a NaN. *)
Lemma b64_max_0_sign (x : float) :
  Binary64.max 0 x = 0%float \/ (0 <? Binary64.max 0 x)%float = true.
Proof.
  unfold Binary64.max. destruct (0 <? x)%float eqn:E; [right; exact E | now left].
Qed.

(** The integers 1..600 convert to non-zero floats. *)
Lemma b64_small_int_converts (n : Z) :
  (1 <= n <= 600)%Z ->
  exists d, Binary64.float_of_int n = Binary64.Ok d /\ (d =? 0)%float = false.
Proof.
  intros Hn.
  assert (Hall : forallb
                   (fun n => match Binary64.float_of_int n with
                             | Binary64.Ok d => negb (d =? 0)%float
                             | Binary64.Raise _ => false
                             end)
                   (range 1 601) = true) by (vm_compute; reflexivity).
  rewrite forallb_forall in Hall.
  specialize (Hall n ltac:(apply in_range; lia)).
  destruct (Binary64.float_of_int n) as [d | e]; [|discriminate].
  exists d. split; [reflexivity|]. now apply negb_true_iff.
Qed.

(** * The binary64 code: the payment calculator *)

Local Open Scope float_scope.

(** A float below another is at most that other. *)
Lemma b64_ltb_leb (x y : float) : (x <? y) = true -> (x <=? y) = true.
Proof.
  rewrite FloatAxioms.ltb_spec, FloatAxioms.leb_spec.
  unfold SFltb, SFleb. now destruct (SFcompare _ _) as [[]|].
Qed.

Lemma b64_max_0_nonneg (x : float) : (0 <=? Binary64.max 0 x) = true.
Proof.
  destruct (b64_max_0_sign x) as [-> | H]; [reflexivity|].
  now apply b64_ltb_leb.
Qed.

(** With a term of 0 years the first division is by zero, in either
    branch: the zero-rate branch divides by [float(0)], the other by
    [x ** 0 - 1 = 1.0 - 1]. *)
Lemma b64_plan_years_zero
    (principal annual_rate bonus_principal : float) (bonus_frequency : Z) :
  Binary64.calculate_monthly_payment principal annual_rate 0
    bonus_principal bonus_frequency =
  Binary64.Raise Binary64.ZeroDivisionError.
Proof.
  unfold Binary64.calculate_monthly_payment.
  destruct (annual_rate / 100 / 12 =? 0); reflexivity.
Qed.

(** In the zero-rate branch, a term of 1..50 years and a frequency of 1
    or 2 give non-zero divisors, whatever the two amounts are. *)
Lemma b64_plan_zero_rate
    (principal annual_rate : float) (years : Z)
    (bonus_principal : float) (bonus_frequency : Z) :
  (annual_rate / 100 / 12 =? 0) = true ->
  (1 <= years <= 50)%Z ->
  bonus_frequency = 1%Z \/ bonus_frequency = 2%Z ->
  exists divisor,
    Binary64.float_of_int (years * 12) = Binary64.Ok divisor /\
    exists bonus_payment,
      Binary64.calculate_monthly_payment principal annual_rate years
        bonus_principal bonus_frequency =
      Binary64.Ok ((principal - bonus_principal) / divisor, bonus_payment).
Proof.
  intros Hr Hy Hf.
  destruct (b64_small_int_converts (years * 12) ltac:(lia)) as (d & Hd & Hd0).
  destruct (b64_small_int_converts (years * bonus_frequency) ltac:(lia))
    as (d' & Hd' & Hd0').
  exists d. split; [exact Hd|].
  unfold Binary64.calculate_monthly_payment. rewrite Hr, Hd.
  cbn [Binary64.bind]. unfold Binary64.truediv at 1. rewrite Hd0.
  cbn [Binary64.bind].
  destruct (0 <? bonus_principal).
  - rewrite Hd'. cbn [Binary64.bind]. unfold Binary64.truediv. rewrite Hd0'.
    cbn [Binary64.bind]. eexists. reflexivity.
  - cbn [Binary64.bind]. eexists. reflexivity.
Qed.

(** C2, amended: [calculate_monthly_payment] validates nothing and has
    no error of its own.  Whatever the principal and the bonus principal
    are (negative, zero, the bonus above the principal), at a rate whose
    monthly rate is zero, over 1..50 years with a frequency of 1 or 2,
    it returns a plan; what it raises are the errors of the arithmetic:
    a term of 0 years raises [ZeroDivisionError] for every rate, and so
    does the valid loan of 1200 at 1e-13 percent over one year, while a
    rate of 1e30 percent raises [OverflowError]. *)
Theorem calculate_monthly_payment_unvalidated
    (principal annual_rate : float) (years : Z)
    (bonus_principal : float) (bonus_frequency : Z) :
  (annual_rate / 100 / 12 =? 0) = true ->
  (1 <= years <= 50)%Z ->
  bonus_frequency = 1%Z \/ bonus_frequency = 2%Z ->
  (exists plan,
     Binary64.calculate_monthly_payment principal annual_rate years
       bonus_principal bonus_frequency = Binary64.Ok plan) /\
  (forall rate,
     Binary64.calculate_monthly_payment principal rate 0
       bonus_principal bonus_frequency =
     Binary64.Raise Binary64.ZeroDivisionError) /\
  (Binary64.valid_terms 1200 1e-13 1 0 2 = true /\
   Binary64.calculate_monthly_payment 1200 1e-13 1 0 2 =
   Binary64.Raise Binary64.ZeroDivisionError) /\
  (Binary64.valid_terms 1200 1e30 1 0 2 = true /\
   Binary64.calculate_monthly_payment 1200 1e30 1 0 2 =
   Binary64.Raise Binary64.OverflowError).
Proof.
  intros Hr Hy Hf. split; [|split; [|split]].
  - destruct (b64_plan_zero_rate principal annual_rate years bonus_principal
                bonus_frequency Hr Hy Hf) as (d & _ & A & H).
    eexists. exact H.
  - intros rate. apply b64_plan_years_zero.
  - split; vm_compute; reflexivity.
  - split; vm_compute; reflexivity.
Qed.

Lemma calculate_monthly_payment_unvalidated_witness :
  (exists plan,
     Binary64.calculate_monthly_payment (-1200) 0 1 (-600) 2 =
     Binary64.Ok plan) /\
  (forall rate,
     Binary64.calculate_monthly_payment (-1200) rate 0 (-600) 2 =
     Binary64.Raise Binary64.ZeroDivisionError) /\
  (Binary64.valid_terms 1200 1e-13 1 0 2 = true /\
   Binary64.calculate_monthly_payment 1200 1e-13 1 0 2 =
   Binary64.Raise Binary64.ZeroDivisionError) /\
  (Binary64.valid_terms 1200 1e30 1 0 2 = true /\
   Binary64.calculate_monthly_payment 1200 1e30 1 0 2 =
   Binary64.Raise Binary64.OverflowError).
Proof.
  apply (calculate_monthly_payment_unvalidated (-1200) 0 1 (-600) 2).
  - reflexivity.
  - lia.
  - now right.
Defined.

(** C4, as stated, fails: on the valid loan of 1200 at 1e-13 percent
    over one year the rate is positive but [1 + monthly_rate] rounds to
    1.0, the divisor [1.0 ** 12 - 1] is 0.0, and no plan is returned. *)
Lemma positive_rate_without_plan :
  Binary64.valid_terms 1200 1e-13 1 0 2 = true /\
  (0 <? 1e-13) = true /\
  ~ exists plan,
      Binary64.calculate_monthly_payment 1200 1e-13 1 0 2 = Binary64.Ok plan.
Proof.
  split; [reflexivity|]. split; [reflexivity|].
  intros [plan H]. vm_compute in H. discriminate H.
Qed.

(** C4, amended: when the monthly rate [r = annual_rate / 100 / 12] is
    not zero, every plan the function returns is the annuity formula
    evaluated in binary64, operation by operation: with the growth
    factor [g = (1 + r) ** (years * 12)], whose distance from 1 is not
    zero, the monthly payment is
    [(principal - bonus_principal) * (r * g) / (g - 1)]; with a bonus
    principal above 0 the bonus payment is
    [bonus_principal * (R * G) / (G - 1)] for [R = r * bonus_frequency]
    and [G = (1 + R) ** years], and otherwise it is 0. *)
Theorem annuity_plan_in_binary64
    (principal annual_rate : float) (years : Z)
    (bonus_principal : float) (bonus_frequency : Z)
    (monthly_payment bonus_payment : float) :
  (annual_rate / 100 / 12 =? 0) = false ->
  Binary64.calculate_monthly_payment principal annual_rate years
    bonus_principal bonus_frequency =
  Binary64.Ok (monthly_payment, bonus_payment) ->
  let r := annual_rate / 100 / 12 in
  exists g,
    Binary64.pow (1 + r) (years * 12) = Binary64.Ok g /\
    (g - 1 =? 0) = false /\
    monthly_payment = (principal - bonus_principal) * (r * g) / (g - 1) /\
    if 0 <? bonus_principal
    then exists frequency G,
           Binary64.float_of_int bonus_frequency = Binary64.Ok frequency /\
           Binary64.pow (1 + r * frequency) years = Binary64.Ok G /\
           (G - 1 =? 0) = false /\
           bonus_payment =
           bonus_principal * (r * frequency * G) / (G - 1)
    else bonus_payment = 0.
Proof.
  intros Hr H r. unfold Binary64.calculate_monthly_payment in H.
  rewrite Hr in H. fold r in H.
  destruct (Binary64.pow (1 + r) (years * 12)) as [g | e];
    cbn [Binary64.bind] in H; [|discriminate H].
  exists g. split; [reflexivity|].
  unfold Binary64.truediv at 1 in H.
  destruct (g - 1 =? 0); cbn [Binary64.bind] in H; [discriminate H|].
  split; [reflexivity|].
  destruct (0 <? bonus_principal).
  - destruct (Binary64.float_of_int bonus_frequency) as [fr | e] eqn:Hfr;
      cbn [Binary64.bind] in H; [|discriminate H].
    destruct (Binary64.pow (1 + r * fr) years) as [G | e] eqn:HG;
      cbn [Binary64.bind] in H; [|discriminate H].
    unfold Binary64.truediv in H.
    destruct (G - 1 =? 0) eqn:HG1; cbn [Binary64.bind] in H; [discriminate H|].
    injection H as <- <-. split; [reflexivity|].
    exists fr, G. repeat split; assumption || reflexivity.
  - cbn [Binary64.bind] in H. injection H as <- <-. split; reflexivity.
Qed.

Lemma annuity_plan_in_binary64_witness :
  let plan :=
    match Binary64.calculate_monthly_payment 1200 12 1 600 2 with
    | Binary64.Ok plan => plan
    | Binary64.Raise _ => (0, 0)
    end in
  let r := 12 / 100 / 12 in
  (r =? 0) = false /\
  exists g,
    Binary64.pow (1 + r) (1 * 12) = Binary64.Ok g /\
    (g - 1 =? 0) = false /\
    fst plan = (1200 - 600) * (r * g) / (g - 1) /\
    exists frequency G,
      Binary64.float_of_int 2 = Binary64.Ok frequency /\
      Binary64.pow (1 + r * frequency) 1 = Binary64.Ok G /\
      (G - 1 =? 0) = false /\
      snd plan = 600 * (r * frequency * G) / (G - 1).
Proof.
  intros plan r.
  assert (Hr : (12 / 100 / 12 =? 0) = false) by reflexivity.
  split; [exact Hr|].
  exact (annuity_plan_in_binary64 1200 12 1 600 2 (fst plan) (snd plan) Hr
           ltac:(vm_compute; reflexivity)).
Defined.

(** * The binary64 code: the schedule simulator *)

(** C7, as stated, fails: on the valid loan of 1200 at 1e-13 percent
    over one year no schedule is returned, the plan having raised
    [ZeroDivisionError]. *)
Lemma valid_terms_without_schedule :
  Binary64.valid_terms 1200 1e-13 1 0 2 = true /\
  Binary64.calculate_amortization_schedule 1200 1e-13 1 0 2 =
  Binary64.Raise Binary64.ZeroDivisionError.
Proof. split; vm_compute; reflexivity. Qed.

(** C7, amended: every schedule the function returns, on valid terms or
    not, has [years * 12] rows (none for a negative term), and their
    period indices are 1, 2, 3, ... in this order. *)
Theorem returned_schedule_length_and_indices
    (principal annual_rate : float) (years : Z)
    (bonus_principal : float) (bonus_frequency : Z)
    (sched : list Binary64.PeriodRecord) :
  Binary64.calculate_amortization_schedule principal annual_rate years
    bonus_principal bonus_frequency = Binary64.Ok sched ->
  length sched = Z.to_nat (years * 12) /\
  map Binary64.periodIndex sched = range 1 (years * 12 + 1) /\
  forall i rec,
    nth_error sched i = Some rec ->
    Binary64.periodIndex rec = (Z.of_nat i + 1)%Z.
Proof.
  intros Hs.
  destruct (b64_schedule_inv _ _ _ _ _ _ Hs) as (plan & _ & ->).
  split; [apply b64_state_after_length|]. split.
  - unfold Binary64.state_after. now rewrite b64_fold_periodIndex.
  - intros i rec Hi. apply b64_state_after_nth_inv in Hi.
    destruct Hi as [_ ->]. apply b64_current_periodIndex. lia.
Qed.

Lemma returned_schedule_length_and_indices_witness :
  let sched :=
    match Binary64.calculate_amortization_schedule 1200 12 1 600 2 with
    | Binary64.Ok sched => sched
    | Binary64.Raise _ => []
    end in
  Binary64.calculate_amortization_schedule 1200 12 1 600 2 =
  Binary64.Ok sched /\
  length sched = Z.to_nat (1 * 12) /\
  map Binary64.periodIndex sched = range 1 (1 * 12 + 1) /\
  forall i rec,
    nth_error sched i = Some rec ->
    Binary64.periodIndex rec = (Z.of_nat i + 1)%Z.
Proof.
  intros sched.
  assert (Hs : Binary64.calculate_amortization_schedule 1200 12 1 600 2 =
               Binary64.Ok sched) by (vm_compute; reflexivity).
  split; [exact Hs|].
  exact (returned_schedule_length_and_indices 1200 12 1 600 2 sched Hs).
Defined.

(** C8: in every row of every schedule the function returns, the
    ending balance is [max(0, monthly_remaining + bonus_remaining)] of
    the two balances as they stand after that row's period, and it is
    at least 0: a sum below zero, or one that is not a number, is
    reported as 0. *)
Theorem returned_endingBalance_floored
    (principal annual_rate : float) (years : Z)
    (bonus_principal : float) (bonus_frequency : Z)
    (sched : list Binary64.PeriodRecord) :
  Binary64.calculate_amortization_schedule principal annual_rate years
    bonus_principal bonus_frequency = Binary64.Ok sched ->
  exists monthly_payment bonus_payment,
    Binary64.calculate_monthly_payment principal annual_rate years
      bonus_principal bonus_frequency =
    Binary64.Ok (monthly_payment, bonus_payment) /\
    forall i rec,
      nth_error sched i = Some rec ->
      let st :=
        Binary64.state_after (annual_rate / 100 / 12)
          monthly_payment bonus_payment
          principal bonus_principal bonus_frequency (Z.of_nat i + 1) in
      Binary64.endingBalance rec =
      Binary64.max 0 (Binary64.monthly_remaining st +
                      Binary64.bonus_remaining st) /\
      (0 <=? Binary64.endingBalance rec) = true.
Proof.
  intros Hs.
  destruct (b64_schedule_inv _ _ _ _ _ _ Hs) as ([M A] & Hplan & ->).
  exists M, A. split; [exact Hplan|].
  intros i rec Hi st. cbn [fst snd] in Hi.
  apply b64_state_after_nth_inv in Hi. destruct Hi as [_ ->].
  subst st. rewrite b64_current_endingBalance by lia.
  split; [reflexivity | apply b64_max_0_nonneg].
Qed.

Lemma returned_endingBalance_floored_witness :
  let sched :=
    match Binary64.calculate_amortization_schedule 20000000 1.05 25 0 2 with
    | Binary64.Ok sched => sched
    | Binary64.Raise _ => []
    end in
  Binary64.calculate_amortization_schedule 20000000 1.05 25 0 2 =
  Binary64.Ok sched /\
  exists monthly_payment bonus_payment,
    Binary64.calculate_monthly_payment 20000000 1.05 25 0 2 =
    Binary64.Ok (monthly_payment, bonus_payment) /\
    forall i rec,
      nth_error sched i = Some rec ->
      let st :=
        Binary64.state_after (1.05 / 100 / 12) monthly_payment bonus_payment
          20000000 0 2 (Z.of_nat i + 1) in
      Binary64.endingBalance rec =
      Binary64.max 0 (Binary64.monthly_remaining st +
                      Binary64.bonus_remaining st) /\
      (0 <=? Binary64.endingBalance rec) = true.
Proof.
  intros sched.
  assert (Hs : Binary64.calculate_amortization_schedule 20000000 1.05 25 0 2 =
               Binary64.Ok sched) by (vm_compute; reflexivity).
  split; [exact Hs|].
  exact (returned_endingBalance_floored 20000000 1.05 25 0 2 sched Hs).
Defined.

(** The floor is at work on the form's default loan, 20,000,000 at 1.05
    percent over 25 years: after the last period the monthly balance is
    below zero and the row reports 0. *)
Lemma b64_default_loan_floor_active :
  exists st,
    Binary64.amortization_final_state 20000000 1.05 25 0 2 = Binary64.Ok st /\
    (Binary64.monthly_remaining st + Binary64.bonus_remaining st <? 0) = true /\
    Binary64.endingBalance (Binary64.current_record st) = 0.
Proof.
  eexists. split; [vm_compute; reflexivity|].
  split; vm_compute; reflexivity.
Qed.

(** C10, as stated, fails: in the sixth row of the schedule of 1200 at
    12 percent over one year with a bonus principal of 600 paid twice a
    year, the principal and interest portions do not add up to the
    total payment. *)
Lemma accounting_identity_broken_by_rounding :
  exists sched rec,
    Binary64.calculate_amortization_schedule 1200 12 1 600 2 =
    Binary64.Ok sched /\
    nth_error sched 5 = Some rec /\
    (Binary64.principalPortion rec + Binary64.interestPortion rec =?
     Binary64.totalPayment rec) = false.
Proof.
  eexists. eexists. split; [vm_compute; reflexivity|].
  split; [reflexivity|]. vm_compute; reflexivity.
Qed.

(** C10, amended: in every row of every schedule the function returns,
    the total payment is the monthly portion plus the bonus portion
    (one addition, so the equality is exact) and the monthly portion is
    the level monthly payment of the plan. *)
Theorem returned_rows_total_is_monthly_plus_bonus
    (principal annual_rate : float) (years : Z)
    (bonus_principal : float) (bonus_frequency : Z)
    (sched : list Binary64.PeriodRecord) :
  Binary64.calculate_amortization_schedule principal annual_rate years
    bonus_principal bonus_frequency = Binary64.Ok sched ->
  exists monthly_payment bonus_payment,
    Binary64.calculate_monthly_payment principal annual_rate years
      bonus_principal bonus_frequency =
    Binary64.Ok (monthly_payment, bonus_payment) /\
    Forall (fun rec =>
              Binary64.totalPayment rec =
              Binary64.monthlyPortionPayment rec +
              Binary64.bonusPortionPayment rec /\
              Binary64.monthlyPortionPayment rec = monthly_payment)
           sched.
Proof.
  intros Hs.
  destruct (b64_schedule_inv _ _ _ _ _ _ Hs) as ([M A] & Hplan & ->).
  exists M, A. split; [exact Hplan|]. cbn [fst snd].
  apply b64_fold_schedule_Forall; [|constructor].
  intros st month.
  rewrite b64_body_totalPayment, b64_body_monthlyPortionPayment.
  split; reflexivity.
Qed.

Lemma returned_rows_total_is_monthly_plus_bonus_witness :
  let sched :=
    match Binary64.calculate_amortization_schedule 1200 12 1 600 2 with
    | Binary64.Ok sched => sched
    | Binary64.Raise _ => []
    end in
  Binary64.calculate_amortization_schedule 1200 12 1 600 2 =
  Binary64.Ok sched /\
  exists monthly_payment bonus_payment,
    Binary64.calculate_monthly_payment 1200 12 1 600 2 =
    Binary64.Ok (monthly_payment, bonus_payment) /\
    Forall (fun rec =>
              Binary64.totalPayment rec =
              Binary64.monthlyPortionPayment rec +
              Binary64.bonusPortionPayment rec /\
              Binary64.monthlyPortionPayment rec = monthly_payment)
           sched.
Proof.
  intros sched.
  assert (Hs : Binary64.calculate_amortization_schedule 1200 12 1 600 2 =
               Binary64.Ok sched) by (vm_compute; reflexivity).
  split; [exact Hs|].
  exact (returned_rows_total_is_monthly_plus_bonus 1200 12 1 600 2 sched Hs).
Defined.

(** * Exact arithmetic against binary64 *)

(** The loan of 1200 at 1200 percent over 5 years: [2^60 - 1] rounds to
    [2^60], the level payment equals the interest of 1200, every row
    has principal portion 0 and the last row still reports a balance of
    1200. *)
Lemma b64_loan_at_1200_percent :
  Binary64.valid_terms 1200 1200 5 0 2 = true /\
  exists sched last_row,
    Binary64.calculate_amortization_schedule 1200 1200 5 0 2 =
    Binary64.Ok sched /\
    nth_error sched (length sched - 1) = Some last_row /\
    Binary64.endingBalance last_row = 1200 /\
    Forall (fun rec => Binary64.principalPortion rec = 0) sched.
Proof.
  split; [reflexivity|].
  eexists. eexists. split; [vm_compute; reflexivity|].
  split; [reflexivity|]. split; [reflexivity|].
  repeat (constructor; [reflexivity|]). constructor.
Qed.

(** The loan of 1019 at 700 percent over 7 years: the level payment
    rounds below the interest of the first month, and the ending balance
    of the second row is above that of the first. *)
Lemma b64_loan_at_700_percent :
  Binary64.valid_terms 1019 700 7 0 2 = true /\
  exists sched row1 row2,
    Binary64.calculate_amortization_schedule 1019 700 7 0 2 =
    Binary64.Ok sched /\
    nth_error sched 0 = Some row1 /\
    nth_error sched 1 = Some row2 /\
    (Binary64.endingBalance row1 <? Binary64.endingBalance row2) = true.
Proof.
  split; [reflexivity|].
  eexists. eexists. eexists. split; [vm_compute; reflexivity|].
  split; [reflexivity|]. split; [reflexivity|]. vm_compute; reflexivity.
Qed.

(** C5, as stated, fails in binary64, and by more than a rounding: on
    the valid loan of 1200 at 1200 percent over 5 years every row has
    principal portion 0 and the last row reports a balance of 1200. *)
Lemma loan_at_1200_percent_never_repaid :
  Binary64.valid_terms 1200 1200 5 0 2 = true /\
  exists sched last_row,
    Binary64.calculate_amortization_schedule 1200 1200 5 0 2 =
    Binary64.Ok sched /\
    nth_error sched (length sched - 1) = Some last_row /\
    Binary64.endingBalance last_row = 1200 /\
    Forall (fun rec => Binary64.principalPortion rec = 0) sched.
Proof. exact b64_loan_at_1200_percent. Qed.

(** C5, amended: in exact rational arithmetic, on valid terms without a
    bonus principal, the last row of the schedule has ending balance 0
    and the principal portions of all rows add up to the principal.
    Binary64 keeps this at best up to rounding, and not for every valid
    loan: at 1200 percent over 5 years the loan of 1200 is never repaid,
    every principal portion being 0 and the last balance 1200. *)
Theorem amortization_without_bonus_exact_not_binary64
    (principal annual_rate : Q) (years : Z)
    (bonus_principal : Q) (bonus_frequency : Z) :
  valid_terms principal annual_rate years bonus_principal bonus_frequency ->
  (bonus_principal == 0)%Q ->
  (exists sched last_row,
     calculate_amortization_schedule principal annual_rate years
       bonus_principal bonus_frequency = Ok sched /\
     nth_error sched (length sched - 1) = Some last_row /\
     (endingBalance last_row == 0)%Q /\
     (sum_principalPortion sched == principal)%Q) /\
  (Binary64.valid_terms 1200 1200 5 0 2 = true /\
   exists sched last_row,
     Binary64.calculate_amortization_schedule 1200 1200 5 0 2 =
     Binary64.Ok sched /\
     nth_error sched (length sched - 1) = Some last_row /\
     Binary64.endingBalance last_row = 1200 /\
     Forall (fun rec => Binary64.principalPortion rec = 0) sched).
Proof.
  intros Hv HB. split.
  - exact (schedule_amortizes_without_bonus principal annual_rate years
             bonus_principal bonus_frequency Hv HB).
  - exact b64_loan_at_1200_percent.
Qed.

Lemma amortization_without_bonus_exact_not_binary64_witness :
  valid_terms 1200%Q 12%Q 1 0%Q 2 /\ (0 == 0)%Q /\
  (exists sched last_row,
     calculate_amortization_schedule 1200%Q 12%Q 1 0%Q 2 = Ok sched /\
     nth_error sched (length sched - 1) = Some last_row /\
     (endingBalance last_row == 0)%Q /\
     (sum_principalPortion sched == 1200)%Q) /\
  (Binary64.valid_terms 1200 1200 5 0 2 = true /\
   exists sched last_row,
     Binary64.calculate_amortization_schedule 1200 1200 5 0 2 =
     Binary64.Ok sched /\
     nth_error sched (length sched - 1) = Some last_row /\
     Binary64.endingBalance last_row = 1200 /\
     Forall (fun rec => Binary64.principalPortion rec = 0) sched).
Proof.
  assert (Hv : valid_terms 1200%Q 12%Q 1 0%Q 2).
  { unfold valid_terms. repeat split; try lra; lia. }
  assert (HB : (0 == 0)%Q) by reflexivity.
  split; [exact Hv|]. split; [exact HB|].
  exact (amortization_without_bonus_exact_not_binary64
           1200%Q 12%Q 1 0%Q 2 Hv HB).
Defined.

(** C9, as stated, fails in binary64: on the valid loan of 1019 at 700
    percent over 7 years the ending balance of the second row is above
    that of the first. *)
Lemma endingBalance_rises_at_700_percent :
  Binary64.valid_terms 1019 700 7 0 2 = true /\
  exists sched row1 row2,
    Binary64.calculate_amortization_schedule 1019 700 7 0 2 =
    Binary64.Ok sched /\
    nth_error sched 0 = Some row1 /\
    nth_error sched 1 = Some row2 /\
    (Binary64.endingBalance row1 <? Binary64.endingBalance row2) = true.
Proof. exact b64_loan_at_700_percent. Qed.

(** C9, amended: in exact rational arithmetic, on valid terms (the rate
    is then non-negative) the ending balance of a row is at most that
    of the row before it.  Binary64 does not keep this for every valid
    loan: at 700 percent over 7 years the level payment of the loan of
    1019 rounds below the first interest and the balance rises. *)
Theorem endingBalance_monotone_exact_not_binary64
    (principal annual_rate : Q) (years : Z)
    (bonus_principal : Q) (bonus_frequency : Z) :
  valid_terms principal annual_rate years bonus_principal bonus_frequency ->
  (exists sched,
     calculate_amortization_schedule principal annual_rate years
       bonus_principal bonus_frequency = Ok sched /\
     forall i r1 r2,
       nth_error sched i = Some r1 ->
       nth_error sched (S i) = Some r2 ->
       (endingBalance r2 <= endingBalance r1)%Q) /\
  (Binary64.valid_terms 1019 700 7 0 2 = true /\
   exists sched row1 row2,
     Binary64.calculate_amortization_schedule 1019 700 7 0 2 =
     Binary64.Ok sched /\
     nth_error sched 0 = Some row1 /\
     nth_error sched 1 = Some row2 /\
     (Binary64.endingBalance row1 <? Binary64.endingBalance row2) = true).
Proof.
  intros Hv. split.
  - exact (endingBalance_non_increasing principal annual_rate years
             bonus_principal bonus_frequency Hv).
  - exact b64_loan_at_700_percent.
Qed.

Lemma endingBalance_monotone_exact_not_binary64_witness :
  valid_terms 1200%Q 0%Q 1 600%Q 2 /\
  (exists sched,
     calculate_amortization_schedule 1200%Q 0%Q 1 600%Q 2 = Ok sched /\
     forall i r1 r2,
       nth_error sched i = Some r1 ->
       nth_error sched (S i) = Some r2 ->
       (endingBalance r2 <= endingBalance r1)%Q) /\
  (Binary64.valid_terms 1019 700 7 0 2 = true /\
   exists sched row1 row2,
     Binary64.calculate_amortization_schedule 1019 700 7 0 2 =
     Binary64.Ok sched /\
     nth_error sched 0 = Some row1 /\
     nth_error sched 1 = Some row2 /\
     (Binary64.endingBalance row1 <? Binary64.endingBalance row2) = true).
Proof.
  assert (Hv : valid_terms 1200%Q 0%Q 1 600%Q 2).
  { unfold valid_terms. repeat split; try lra; lia. }
  split; [exact Hv|].
  exact (endingBalance_monotone_exact_not_binary64 1200%Q 0%Q 1 600%Q 2 Hv).
Defined.

(** * The binary64 code: the yearly summary of [main] *)

(** The yearly summary cuts a returned schedule into its years: the row
    selections of the years 1, 2, ..., [years], one after the other,
    are the schedule itself, no row lost and none taken twice, and the
    summary has one row per year, labelled 1, 2, ..., [years], whatever
    pandas' [sum] returns. *)
Theorem year_blocks_partition_returned_schedule
    (series_sum : list float -> float)
    (principal annual_rate : float) (years : Z)
    (bonus_principal : float) (bonus_frequency : Z)
    (sched : list Binary64.PeriodRecord) :
  Binary64.calculate_amortization_schedule principal annual_rate years
    bonus_principal bonus_frequency = Binary64.Ok sched ->
  concat (map (Binary64.year_data sched) (range 1 (years + 1))) = sched /\
  map Binary64.yearIndex (Binary64.yearly_summary series_sum sched years) =
  range 1 (years + 1).
Proof.
  intros Hs.
  destruct (b64_schedule_inv _ _ _ _ _ _ Hs) as (plan & _ & ->).
  split.
  - destruct (Z.le_gt_cases 0 years) as [Hy | Hy].
    + rewrite b64_years_concat by lia. symmetry. apply b64_schedule_as_map.
    + rewrite (range_nil 1 (years + 1)) by lia.
      unfold Binary64.state_after. now rewrite range_nil by lia.
  - unfold Binary64.yearly_summary. rewrite map_map. cbn [Binary64.yearIndex
      Binary64.year_record]. apply map_id.
Qed.

Lemma year_blocks_partition_returned_schedule_witness :
  let sched :=
    match Binary64.calculate_amortization_schedule 1200 12 2 600 2 with
    | Binary64.Ok sched => sched
    | Binary64.Raise _ => []
    end in
  let series_sum := fun column => fold_left PrimFloat.add column 0 in
  Binary64.calculate_amortization_schedule 1200 12 2 600 2 =
  Binary64.Ok sched /\
  concat (map (Binary64.year_data sched) (range 1 (2 + 1))) = sched /\
  map Binary64.yearIndex (Binary64.yearly_summary series_sum sched 2) =
  range 1 (2 + 1).
Proof.
  intros sched series_sum.
  assert (Hs : Binary64.calculate_amortization_schedule 1200 12 2 600 2 =
               Binary64.Ok sched) by (vm_compute; reflexivity).
  split; [exact Hs|].
  exact (year_blocks_partition_returned_schedule series_sum 1200 12 2 600 2 sched Hs).
Defined.

(** In a returned schedule every year from 1 to [years] selects exactly
    the 12 rows of its months, in order, and the year-end balance of
    its summary row is the ending balance of its last month, row
    [12 * year] of the schedule. *)
Theorem yearly_rows_of_returned_schedule
    (series_sum : list float -> float)
    (principal annual_rate : float) (years : Z)
    (bonus_principal : float) (bonus_frequency : Z)
    (sched : list Binary64.PeriodRecord) (year : Z) :
  Binary64.calculate_amortization_schedule principal annual_rate years
    bonus_principal bonus_frequency = Binary64.Ok sched ->
  (1 <= year <= years)%Z ->
  length (Binary64.year_data sched year) = 12%nat /\
  map Binary64.periodIndex (Binary64.year_data sched year) =
  range ((year - 1) * 12 + 1) (year * 12 + 1) /\
  exists december,
    nth_error sched (Z.to_nat (year * 12 - 1)) = Some december /\
    Binary64.yearEndBalance (Binary64.year_record series_sum sched year) =
    Binary64.endingBalance december.
Proof.
  intros Hs Hy.
  destruct (b64_schedule_inv _ _ _ _ _ _ Hs) as (plan & _ & ->).
  split; [apply b64_year_data_length; lia|]. split.
  - rewrite b64_year_data_full by lia. rewrite map_map.
    rewrite <- (map_id (range _ _)) at 2. apply map_ext_in.
    intros j Hj. apply in_range in Hj. apply b64_current_periodIndex. lia.
  - eexists. split.
    + rewrite b64_schedule_as_map, nth_error_map.
      rewrite <- (Z2Nat.id (year * 12 - 1)) at 1 by lia.
      pose proof (nth_error_range 1 (years * 12 + 1) (year * 12 - 1)
                    ltac:(lia)) as Hn.
      rewrite Z2Nat.id by lia. rewrite Hn. cbn [option_map]. reflexivity.
    + cbn [Binary64.yearEndBalance Binary64.year_record].
      pose proof (b64_year_data_length (annual_rate / 100 / 12)
                    (fst plan) (snd plan) principal bonus_principal
                    bonus_frequency (years * 12) year
                    ltac:(lia) ltac:(lia)) as Hlen.
      pose proof (b64_year_data_last (annual_rate / 100 / 12)
                    (fst plan) (snd plan) principal bonus_principal
                    bonus_frequency (years * 12) year
                    ltac:(lia) ltac:(lia)) as Hlast.
      destruct (Binary64.year_data _ year) as [|r rs]; [discriminate Hlen|].
      rewrite Hlast. f_equal. f_equal. f_equal. lia.
Qed.

Lemma yearly_rows_of_returned_schedule_witness :
  let sched :=
    match Binary64.calculate_amortization_schedule 1200 12 2 600 2 with
    | Binary64.Ok sched => sched
    | Binary64.Raise _ => []
    end in
  let series_sum := fun column => fold_left PrimFloat.add column 0 in
  Binary64.calculate_amortization_schedule 1200 12 2 600 2 =
  Binary64.Ok sched /\
  (1 <= 2 <= 2)%Z /\
  length (Binary64.year_data sched 2) = 12%nat /\
  map Binary64.periodIndex (Binary64.year_data sched 2) =
  range ((2 - 1) * 12 + 1) (2 * 12 + 1) /\
  exists december,
    nth_error sched (Z.to_nat (2 * 12 - 1)) = Some december /\
    Binary64.yearEndBalance (Binary64.year_record series_sum sched 2) =
    Binary64.endingBalance december.
Proof.
  intros sched series_sum.
  assert (Hs : Binary64.calculate_amortization_schedule 1200 12 2 600 2 =
               Binary64.Ok sched) by (vm_compute; reflexivity).
  assert (Hy : (1 <= 2 <= 2)%Z) by lia.
  split; [exact Hs|]. split; [exact Hy|].
  exact (yearly_rows_of_returned_schedule series_sum 1200 12 2 600 2 sched 2
           Hs Hy).
Defined.

(** The two excerpts [main] shows under the summary are whole years:
    in every returned schedule of a positive term, [head(12)] is the row
    selection of year 1 and [tail(12)] that of the final year. *)
Theorem excerpts_of_returned_schedule
    (principal annual_rate : float) (years : Z)
    (bonus_principal : float) (bonus_frequency : Z)
    (sched : list Binary64.PeriodRecord) :
  Binary64.calculate_amortization_schedule principal annual_rate years
    bonus_principal bonus_frequency = Binary64.Ok sched ->
  (1 <= years)%Z ->
  Binary64.first_12 sched = Binary64.year_data sched 1 /\
  Binary64.last_12 sched = Binary64.year_data sched years.
Proof.
  intros Hs Hy.
  destruct (b64_schedule_inv _ _ _ _ _ _ Hs) as (plan & _ & ->).
  split.
  - rewrite b64_year_data_full by lia. unfold Binary64.first_12.
    rewrite b64_schedule_as_map.
    rewrite (range_app 1 13 (years * 12 + 1)) by lia.
    rewrite map_app, firstn_app.
    rewrite length_map, range_length.
    change (12 - Z.to_nat (13 - 1))%nat with 0%nat.
    rewrite firstn_O, app_nil_r.
    apply firstn_all2. rewrite length_map, range_length. lia.
  - rewrite b64_year_data_full by lia. unfold Binary64.last_12.
    rewrite b64_state_after_length.
    rewrite b64_schedule_as_map.
    rewrite (range_app 1 ((years - 1) * 12 + 1) (years * 12 + 1)) by lia.
    rewrite map_app, skipn_app.
    rewrite length_map, range_length.
    replace (Z.to_nat (years * 12) - 12 - Z.to_nat ((years - 1) * 12 + 1 - 1))%nat
      with 0%nat by lia.
    rewrite skipn_O.
    rewrite skipn_all2 by (rewrite length_map, range_length; lia).
    reflexivity.
Qed.

Lemma excerpts_of_returned_schedule_witness :
  let sched :=
    match Binary64.calculate_amortization_schedule 1200 12 2 600 2 with
    | Binary64.Ok sched => sched
    | Binary64.Raise _ => []
    end in
  Binary64.calculate_amortization_schedule 1200 12 2 600 2 =
  Binary64.Ok sched /\
  (1 <= 2)%Z /\
  Binary64.first_12 sched = Binary64.year_data sched 1 /\
  Binary64.last_12 sched = Binary64.year_data sched 2.
Proof.
  intros sched.
  assert (Hs : Binary64.calculate_amortization_schedule 1200 12 2 600 2 =
               Binary64.Ok sched) by (vm_compute; reflexivity).
  assert (Hy : (1 <= 2)%Z) by lia.
  split; [exact Hs|]. split; [exact Hy|].
  exact (excerpts_of_returned_schedule 1200 12 2 600 2 sched Hs Hy).
Defined.

(** * The binary64 code: a bonus frequency of 0 *)

(** A finite float times 0.0 is a zero, and 1 plus it is 1. *)
Lemma b64_one_plus_finite_times_zero (r : float) :
  is_finite r = true -> 1 + r * 0 = 1.
Proof.
  intros Hfin.
  assert (Hz : exists s, Prim2SF (r * 0) = S754_zero s).
  { rewrite FloatAxioms.mul_spec.
    change (Prim2SF 0) with (S754_zero false).
    unfold is_finite, is_nan, is_infinity in Hfin.
    rewrite !FloatAxioms.eqb_spec, FloatAxioms.abs_spec in Hfin.
    change (Prim2SF infinity) with (S754_infinity false) in Hfin.
    destruct (Prim2SF r) as [s | [] | | s m e]; cbn in Hfin;
      try discriminate Hfin; now exists (xorb s false). }
  destruct Hz as [s Hz].
  rewrite <- (FloatAxioms.SF2Prim_Prim2SF (r * 0)), Hz.
  now destruct s.
Qed.

(** [1.0 ** n] is 1.0, unless [n] is too large to be converted. *)
Lemma b64_pow_one (n : Z) :
  Binary64.pow 1 n = Binary64.Ok 1 \/
  Binary64.pow 1 n = Binary64.Raise Binary64.OverflowError.
Proof.
  unfold Binary64.pow.
  destruct (Binary64.round_int n) as [s | s | | s m e]; [ | now right | | ];
    left; destruct (Binary64.Z_of_integral _ =? 0)%Z; reflexivity.
Qed.

(** With a bonus principal above 0 and a bonus frequency of 0 no plan
    is returned, whatever the principal and the term, at any rate whose
    monthly rate is a finite number: the function raises, at the latest
    when it divides the bonus principal by [years * 0], or by
    [1.0 ** years - 1], and [calculate_amortization_schedule] raises
    the same error before its loop. *)
Theorem zero_bonus_frequency_never_returns
    (principal annual_rate : float) (years : Z) (bonus_principal : float) :
  (0 <? bonus_principal) = true ->
  is_finite (annual_rate / 100 / 12) = true ->
  exists e,
    Binary64.calculate_monthly_payment principal annual_rate years
      bonus_principal 0 = Binary64.Raise e /\
    Binary64.calculate_amortization_schedule principal annual_rate years
      bonus_principal 0 = Binary64.Raise e.
Proof.
  intros HB Hfin.
  enough (H : exists e,
             Binary64.calculate_monthly_payment principal annual_rate years
               bonus_principal 0 = Binary64.Raise e).
  { destruct H as [e He]. exists e. split; [exact He|].
    unfold Binary64.calculate_amortization_schedule,
      Binary64.amortization_final_state.
    now rewrite He. }
  unfold Binary64.calculate_monthly_payment. rewrite HB, Z.mul_0_r.
  destruct (annual_rate / 100 / 12 =? 0).
  - destruct (Binary64.float_of_int (years * 12)) as [d | e];
      cbn [Binary64.bind]; [|now exists e].
    destruct (Binary64.truediv _ d) as [M | e];
      cbn [Binary64.bind]; [|now exists e].
    now exists Binary64.ZeroDivisionError.
  - destruct (Binary64.pow _ (years * 12)) as [g | e];
      cbn [Binary64.bind]; [|now exists e].
    destruct (Binary64.truediv _ (g - 1)) as [M | e];
      cbn [Binary64.bind]; [|now exists e].
    change (Binary64.float_of_int 0) with (Binary64.Ok 0%float).
    cbn [Binary64.bind].
    rewrite (b64_one_plus_finite_times_zero _ Hfin).
    destruct (b64_pow_one years) as [-> | ->]; cbn [Binary64.bind].
    + now exists Binary64.ZeroDivisionError.
    + now exists Binary64.OverflowError.
Qed.

Lemma zero_bonus_frequency_never_returns_witness :
  (0 <? 600) = true /\
  is_finite (12 / 100 / 12) = true /\
  exists e,
    Binary64.calculate_monthly_payment 1200 12 1 600 0 = Binary64.Raise e /\
    Binary64.calculate_amortization_schedule 1200 12 1 600 0 =
    Binary64.Raise e.
Proof.
  assert (HB : (0 <? 600) = true) by reflexivity.
  assert (Hfin : is_finite (12 / 100 / 12) = true) by reflexivity.
  split; [exact HB|]. split; [exact Hfin|].
  exact (zero_bonus_frequency_never_returns 1200 12 1 600 HB Hfin).
Defined.
